(** * Data_Clean_App: the cleaning pipeline of [app.py]

    [app.py] is a Streamlit script around four table operations:
    [DataFrame.dropna(subset=...)] (line 79), the winsorize loop
    (lines 119-123), the IQR filter (lines 124-132) and the CSV export
    (lines 154-157), all acting on [st.session_state.cleaned_df].

    The embedding keeps the column-oriented shape of a pandas DataFrame: an
    index of row labels and a list of named, typed columns.  Numeric cells
    are exact rationals ([Qc]); a missing value (NaN / None) is [None]. *)

From Stdlib Require Import Ascii String QArith Qcanon Qround.
From stdpp Require Import base option list strings numbers sorting gmap pretty.

(** ** Data model *)

(** A column carries its dtype: [NumCol] stands for the dtypes selected by
    [select_dtypes(include=["float", "int"])], [ObjCol] for every other
    dtype that [pd.read_csv] infers (text). *)
Inductive column :=
  | NumCol (v : list (option Qc))
  | ObjCol (v : list (option string)).

Record DataFrame := mkDataFrame {
  index : list nat;                 (* row labels *)
  data : list (string * column)     (* columns, in order *)
}.

Definition columns (df : DataFrame) : list string := (data df).*1.
Definition nrows (df : DataFrame) : nat := length (index df).

(** One cell of a row, as a row view ([iterrows]) shows it. *)
Inductive cell :=
  | NA
  | Num (x : Qc)
  | Str (s : string).

Global Instance cell_eq_dec : EqDecision cell.
Proof. solve_decision. Defined.

Definition cells (c : column) : list cell :=
  match c with
  | NumCol v => from_option Num NA <$> v
  | ObjCol v => from_option Str NA <$> v
  end.

Definition col_len (c : column) : nat := length (cells c).

Definition is_numeric (c : column) : bool :=
  match c with NumCol _ => true | ObjCol _ => false end.

(** Every column has one cell per row label. *)
Definition wf (df : DataFrame) : Prop :=
  Forall (λ p, col_len p.2 = nrows df) (data df).

(** ** Row view *)

Definition row : Type := nat * list (string * cell).

Fixpoint rows_aux (idx : list nat) (d : list (string * list cell)) : list row :=
  match idx with
  | [] => []
  | l :: idx' =>
      (l, prod_map id (λ v, default NA (head v)) <$> d)
      :: rows_aux idx' (prod_map id tail <$> d)
  end.

Definition rows (df : DataFrame) : list row :=
  rows_aux (index df) (prod_map id cells <$> data df).

(** The row at position [i], read off the columns. *)
Definition row_at (df : DataFrame) (i : nat) : list (string * cell) :=
  prod_map id (λ col, default NA (cells col !! i)) <$> data df.

(** ** Boolean indexing: [df[mask]] *)

Fixpoint take_mask {A} (m : list bool) (l : list A) : list A :=
  match m, l with
  | b :: m', x :: l' => if b then x :: take_mask m' l' else take_mask m' l'
  | _, _ => []
  end.

Definition col_mask (m : list bool) (c : column) : column :=
  match c with
  | NumCol v => NumCol (take_mask m v)
  | ObjCol v => ObjCol (take_mask m v)
  end.

Definition loc_mask (m : list bool) (df : DataFrame) : DataFrame :=
  mkDataFrame (take_mask m (index df)) (prod_map id (col_mask m) <$> data df).

(** Row-wise reductions of a boolean frame: [.all(axis=1)], [.any(axis=1)]. *)
Definition all_axis1 (n : nat) (cols : list (list bool)) : list bool :=
  foldr (zip_with andb) (replicate n true) cols.

Definition any_axis1 (n : nat) (cols : list (list bool)) : list bool :=
  foldr (zip_with orb) (replicate n false) cols.

(** ** Missing-value drop (lines 75-79) *)

Definition notna (c : column) : list bool :=
  (λ x, bool_decide (x ≠ NA)) <$> cells c.

(** [DataFrame.dropna(subset=...)] with the default [how="any"]: a label of
    [subset] that is no column raises KeyError; otherwise the rows with a
    missing value in a column named in [subset] are left out. *)
Definition dropna (subset : list string) (df : DataFrame) : option DataFrame :=
  if decide (subset ⊆ columns df) then
    let agg := filter (λ p, p.1 ∈ subset) (data df) in
    let mask := all_axis1 (nrows df) (notna <$> agg.*2) in
    Some (loc_mask mask df)
  else None.

(** Lines 75-79: the checkbox, the multiselect and the guard
    [if columns_to_drop_missing:]. *)
Definition drop_missing_step (enabled : bool) (columns_to_drop_missing : list string)
    (df : DataFrame) : option DataFrame :=
  if enabled then
    match columns_to_drop_missing with
    | [] => Some df
    | _ :: _ => dropna columns_to_drop_missing df
    end
  else Some df.

(** A row is non-null in every column named in [C]. *)
Definition non_null_in (C : list string) (r : row) : Prop :=
  Forall (λ p, p.1 ∈ C → p.2 ≠ NA) r.2.

Global Instance non_null_in_dec C r : Decision (non_null_in C r).
Proof. unfold non_null_in. apply _. Defined.

(** ** Winsorizing (lines 119-123) *)

(** numpy orders numeric cells with NaN after every number. *)
Definition nan_le (x y : option Qc) : Prop :=
  match x, y with
  | _, None => True
  | None, Some _ => False
  | Some a, Some b => (a ≤ b)%Qc
  end.

Global Instance nan_le_dec : RelDecision nan_le.
Proof. intros [a|] [b|]; simpl; apply _. Defined.

Definition nan_lt (x y : option Qc) : Prop := ¬ nan_le y x.

(** [a.argsort()]: the positions of [a], ordered by the cells they hold. *)
Definition key_le (p q : option Qc * nat) : Prop := nan_le p.1 q.1.

Global Instance key_le_dec : RelDecision key_le.
Proof. intros p q. unfold key_le. apply _. Defined.

Definition argsort (a : list (option Qc)) : list nat :=
  (merge_sort key_le (zip a (seq 0 (length a)))).*2.

(** [a[js] = x] for an array of positions [js]. *)
Definition set_at {A} (js : list nat) (x : A) (a : list A) : list A :=
  foldr (λ j b, <[j:=x]> b) a js.

(** [int(0.05 * n)], the number of cells cut on each side. *)
Definition cut (n : nat) : nat := n / 20.

(** [_winsorize1D] of [scipy.stats.mstats.winsorize] at
    [limits=[0.05, 0.05]], [inclusive=(True, True)] and
    [nan_policy="propagate"], for a given argsort [idx] of [a].  Reading
    [idx[lowidx]] of an empty array raises IndexError. *)
Definition winsorize1D (idx : list nat) (a : list (option Qc))
    : option (list (option Qc)) :=
  let n := length a in
  let lowidx := cut n in
  il ← idx !! lowidx;
  lo ← a !! il;
  let a1 := set_at (take lowidx idx) lo a in
  let upidx := n - cut n in
  iu ← idx !! (upidx - 1);
  hi ← a1 !! iu;
  Some (set_at (drop upidx idx) hi a1).

Definition winsorize (a : list (option Qc)) : option (list (option Qc)) :=
  winsorize1D (argsort a) a.

(** [select_dtypes(include=["float", "int"]).columns] *)
Definition numeric_columns (df : DataFrame) : list string :=
  (filter (λ p, is_numeric p.2 = true) (data df)).*1.

(** [df[c]] *)
Fixpoint getitem (c : string) (d : list (string * column)) : option column :=
  match d with
  | [] => None
  | p :: d' => if decide (p.1 = c) then Some p.2 else getitem c d'
  end.

(** [df[c] = col] for a column label that exists. *)
Definition setitem (c : string) (col : column) (df : DataFrame) : DataFrame :=
  mkDataFrame (index df)
    ((λ p, if decide (p.1 = c) then (c, col) else p) <$> data df).

(** The loop of lines 121-122 over the labels [cs]. *)
Fixpoint winsorize_loop (cs : list string) (df : DataFrame) : option DataFrame :=
  match cs with
  | [] => Some df
  | c :: cs' =>
      match getitem c (data df) with
      | Some (NumCol v) =>
          v' ← winsorize v; winsorize_loop cs' (setitem c (NumCol v') df)
      | _ => None
      end
  end.

Definition winsorize_df (df : DataFrame) : option DataFrame :=
  winsorize_loop (numeric_columns df) df.

(** Clipping a cell into the interval from [lo] to [hi]. *)
Definition clip (lo hi x : option Qc) : option Qc :=
  if decide (nan_lt x lo) then lo
  else if decide (nan_lt hi x) then hi
  else x.

(** The cell at rank [j] (from 0) of the column in ascending order. *)
Definition kth_smallest (j : nat) (a : list (option Qc)) : option Qc :=
  default None (merge_sort nan_le a !! j).

Definition low_cut (a : list (option Qc)) : option Qc :=
  kth_smallest (cut (length a)) a.

Definition high_cut (a : list (option Qc)) : option Qc :=
  kth_smallest (length a - cut (length a) - 1) a.

(** [idx] is a valid result of [a.argsort()]: a rearrangement of the
    positions of [a] along which the cells ascend.  numpy's default sort is
    not stable, so positions of equal cells may come in any order. *)
Definition sorts (idx : list nat) (a : list (option Qc)) : Prop :=
  idx ≡ₚ seq 0 (length a) ∧ Sorted nan_le ((a !!!.) <$> idx).

(** What the winsorize loop leaves in a column. *)
Definition winsorized_column (c : column) : column :=
  match c with
  | NumCol v => NumCol (clip (low_cut v) (high_cut v) <$> v)
  | ObjCol _ => c
  end.

(** ** Quantiles and the IQR filter (lines 124-132) *)

(** [DataFrame.quantile(q)] on one numeric column: missing values are
    skipped and the default linear interpolation is used; a column without
    values gives NaN.  The interpolation is evaluated exactly here; the
    library evaluates it in float64, so the two agree where no rounding
    occurs (as on the sample tables below). *)
Definition quantile (q : Qc) (v : list (option Qc)) : option Qc :=
  let s := merge_sort Qcle (omap id v) in
  match s with
  | [] => None
  | x0 :: _ =>
      let h := (q * Qc_of_Z (Z.of_nat (length s - 1)))%Qc in
      let j := Qfloor h in
      let g := (h - Qc_of_Z j)%Qc in
      let lo := default x0 (s !! Z.to_nat j) in
      let hi := default lo (s !! S (Z.to_nat j)) in
      Some (lo + g * (hi - lo))%Qc
  end.

(** [DataFrame.quantile(q)]: one value per column; a text column raises
    TypeError.  A dtype that [select_dtypes] does not select but [quantile]
    accepts (uint64), which the data model also files under [ObjCol], is not
    described by this definition: the library returns a value there.  The
    statements on the filter either assume [all_numeric] or concern a table
    with a text column. *)
Definition df_quantile (q : Qc) (df : DataFrame) : option (list (option Qc)) :=
  mapM (λ p, match p.2 with
             | NumCol v => Some (quantile q v)
             | ObjCol _ => None
             end) (data df).

(** Arithmetic on Series entries: NaN propagates. *)
Definition nan_lift2 (f : Qc → Qc → Qc) (x y : option Qc) : option Qc :=
  a ← x; b ← y; Some (f a b).

(** [x < y] on cells: a comparison with NaN is False. *)
Definition lt_cell (x y : option Qc) : bool :=
  match x, y with
  | Some a, Some b => bool_decide (a < b)%Qc
  | _, _ => false
  end.

(** [df < s] and [df > s] for a Series [s] with one entry per column. *)
Definition cmp_frame (cmp : option Qc → option Qc → bool) (df : DataFrame)
    (s : list (option Qc)) : option (list (list bool)) :=
  mapM (λ p, match p.1 with
             | NumCol v => Some ((λ x, cmp x p.2) <$> v)
             | ObjCol _ => None
             end) (zip (data df).*2 s).

Definition or_frame (f g : list (list bool)) : list (list bool) :=
  zip_with (zip_with orb) f g.

Definition q025 : Qc := Q2Qc (1 # 4).
Definition q075 : Qc := Q2Qc (3 # 4).
Definition k15 : Qc := Q2Qc (3 # 2).

(** Lines 126-131, with the arithmetic of lines 126-129 evaluated exactly.
    [iqr_remove_with] below is the same filter with the float64 arithmetic
    left open. *)
Definition iqr_remove (cleaned_df : DataFrame) : option DataFrame :=
  Q1 ← df_quantile q025 cleaned_df;
  Q3 ← df_quantile q075 cleaned_df;
  let IQR := zip_with (nan_lift2 Qcminus) Q3 Q1 in
  let lower := zip_with (nan_lift2 Qcminus) Q1 (nan_lift2 Qcmult (Some k15) <$> IQR) in
  let upper := zip_with (nan_lift2 Qcplus) Q3 (nan_lift2 Qcmult (Some k15) <$> IQR) in
  below ← cmp_frame lt_cell cleaned_df lower;
  above ← cmp_frame (flip lt_cell) cleaned_df upper;
  let is_outlier := or_frame below above in
  Some (loc_mask (negb <$> any_axis1 (nrows cleaned_df) is_outlier) cleaned_df).

(** The cells of a numeric column. *)
Definition nums (c : column) : list (option Qc) :=
  match c with NumCol v => v | ObjCol _ => [] end.

Definition all_numeric (df : DataFrame) : Prop :=
  Forall (λ p, is_numeric p.2 = true) (data df).

(** The two fences of a column and the flags they give its cells. *)
Definition lower_fence (v : list (option Qc)) : option Qc :=
  let Q1 := quantile q025 v in
  let Q3 := quantile q075 v in
  nan_lift2 Qcminus Q1 (nan_lift2 Qcmult (Some k15) (nan_lift2 Qcminus Q3 Q1)).

Definition upper_fence (v : list (option Qc)) : option Qc :=
  let Q1 := quantile q025 v in
  let Q3 := quantile q075 v in
  nan_lift2 Qcplus Q3 (nan_lift2 Qcmult (Some k15) (nan_lift2 Qcminus Q3 Q1)).

Definition outlier_flags (v : list (option Qc)) : list bool :=
  (λ x, lt_cell x (lower_fence v) || lt_cell (upper_fence v) x) <$> v.

(** *** The filter over float64 arithmetic

    What lines 126-129 compute in float64 is taken as given: the quantile of
    a numeric column, subtraction, addition, the product with a constant,
    and the two comparisons of a cell with a computed value (which may be
    NaN or infinite). *)
Record float64_arith := mkFloat64Arith {
  fl : Type;
  fl_quantile : Qc → list (option Qc) → fl;
  fl_sub : fl → fl → fl;
  fl_add : fl → fl → fl;
  fl_scale : Qc → fl → fl;
  cell_lt : option Qc → fl → bool;
  cell_gt : option Qc → fl → bool
}.

(** The arithmetic without rounding, on which [iqr_remove] is built. *)
Definition exact_arith : float64_arith :=
  mkFloat64Arith (option Qc) quantile (nan_lift2 Qcminus) (nan_lift2 Qcplus)
    (λ k, nan_lift2 Qcmult (Some k)) lt_cell (flip lt_cell).

Definition df_quantile_with (A : float64_arith) (q : Qc) (df : DataFrame)
    : option (list (fl A)) :=
  mapM (λ p, match p.2 with
             | NumCol v => Some (fl_quantile A q v)
             | ObjCol _ => None
             end) (data df).

Definition cmp_frame_with (A : float64_arith) (cmp : option Qc → fl A → bool)
    (df : DataFrame) (s : list (fl A)) : option (list (list bool)) :=
  mapM (λ p, match p.1 with
             | NumCol v => Some ((λ x, cmp x p.2) <$> v)
             | ObjCol _ => None
             end) (zip (data df).*2 s).

(** Lines 126-131. *)
Definition iqr_remove_with (A : float64_arith) (cleaned_df : DataFrame)
    : option DataFrame :=
  Q1 ← df_quantile_with A q025 cleaned_df;
  Q3 ← df_quantile_with A q075 cleaned_df;
  let IQR := zip_with (fl_sub A) Q3 Q1 in
  let lower := zip_with (fl_sub A) Q1 (fl_scale A k15 <$> IQR) in
  let upper := zip_with (fl_add A) Q3 (fl_scale A k15 <$> IQR) in
  below ← cmp_frame_with A (cell_lt A) cleaned_df lower;
  above ← cmp_frame_with A (cell_gt A) cleaned_df upper;
  let is_outlier := or_frame below above in
  Some (loc_mask (negb <$> any_axis1 (nrows cleaned_df) is_outlier) cleaned_df).






(** Clipping at the 5th and 95th percentiles, with the percentile that the
    application computes for Q1 and Q3 ([quantile], linear interpolation);
    this follows the wording of the specification, not [winsorize]. *)
Definition percentile_clip (v : list (option Qc)) : list (option Qc) :=
  clip (quantile (Q2Qc (5 # 100)) v) (quantile (Q2Qc (95 # 100)) v) <$> v.

(** ** The Clean Data button (lines 114-134) *)

(** The options of the selectbox of line 105. *)
Definition outlier_methods : list string := ["Winsorize"; "Remove outliers"].

Definition clean_data (handle_outliers : bool) (outlier_method : string)
    (cleaned_df : DataFrame) : option DataFrame :=
  if handle_outliers then
    if decide (outlier_method = "Winsorize") then winsorize_df cleaned_df
    else if decide (outlier_method = "Remove") then iqr_remove cleaned_df
    else Some cleaned_df
  else Some cleaned_df.

(** ** Session state (lines 12-18) *)

(** [st.session_state], restricted to the entries that hold a table. *)
Abbreviation session_state := (gmap string DataFrame).

(** Lines 14-18 of a run with an uploaded file that parses to [df]. *)
Definition init_session (df : DataFrame) (ss : session_state) : session_state :=
  match ss !! "cleaned_df" with
  | None => <["cleaned_df" := df]> ss
  | Some _ => ss
  end.

(** Lines 114-134: a click on Clean Data in a session that holds a Working
    Table.  An exception ends the run before line 134 and leaves the session
    as it was. *)
Definition clean_click (handle_outliers : bool) (outlier_method : string)
    (ss : session_state) : option session_state :=
  df ← ss !! "cleaned_df";
  cleaned_df ← clean_data handle_outliers outlier_method df;
  Some (<["cleaned_df" := cleaned_df]> ss).

(** ** Export (lines 146-157) *)

Definition export_dir : string := "exports".

Definition starts_with_sep (b : string) : bool :=
  match b with
  | String "/"%char _ => true
  | _ => false
  end.

Fixpoint ends_with_sep (a : string) : bool :=
  match a with
  | EmptyString => false
  | String "/"%char EmptyString => true
  | String _ a' => ends_with_sep a'
  end.

(** [os.path.join(a, b)] of [posixpath]. *)
Definition path_join (a b : string) : string :=
  if starts_with_sep b then b
  else if bool_decide (a = "") || ends_with_sep a then a +:+ b
  else a +:+ "/" +:+ b.

(** Line 156. *)
Definition cleaned_df_path (cleaned_df_filename : string) : string :=
  path_join export_dir cleaned_df_filename.





(** The three operations on the Working Table. *)
Inductive operation :=
  | DropMissing (columns_to_drop_missing : list string)
  | Winsorize
  | RemoveOutliers.

Definition apply_operation (op : operation) (df : DataFrame) : option DataFrame :=
  match op with
  | DropMissing C => drop_missing_step true C df
  | Winsorize => winsorize_df df
  | RemoveOutliers => iqr_remove df
  end.

(** ** Sample tables *)

Definition num (z : Z) : option Qc := Some (Qc_of_Z z).

(** Four people, one without a name and one without an age. *)
Definition people : DataFrame :=
  mkDataFrame [0; 1; 2; 3]
    [("name", ObjCol [Some "ann"; Some "bob"; None; Some "dan"]);
     ("age", NumCol [num 31; None; num 45; num 27])].

(** One numeric column whose largest value lies above the upper fence. *)
Definition six : DataFrame :=
  mkDataFrame [0; 1; 2; 3; 4; 5] [("x", NumCol (num <$> [0; 1; 1; 1; 2; 3]%Z))].

Definition six_pass1 : DataFrame :=
  mkDataFrame [0; 1; 2; 3; 4] [("x", NumCol (num <$> [0; 1; 1; 1; 2]%Z))].

Definition six_pass2 : DataFrame :=
  mkDataFrame [1; 2; 3] [("x", NumCol (num <$> [1; 1; 1]%Z))].

Definition five : DataFrame :=
  mkDataFrame [0; 1; 2; 3; 4] [("x", NumCol (num <$> [1; 2; 3; 4; 100]%Z))].

Definition five_pass1 : DataFrame :=
  mkDataFrame [0; 1; 2; 3] [("x", NumCol (num <$> [1; 2; 3; 4]%Z))].

(** Ten rows: fewer than twenty, so [cut] is zero. *)
Definition ten_values : list (option Qc) :=
  num <$> [1; 2; 3; 4; 5; 6; 7; 8; 9; 10]%Z.

Definition ten : DataFrame := mkDataFrame (seq 0 10) [("x", NumCol ten_values)].

(** Twenty rows with a text column. *)
Definition twenty : DataFrame :=
  mkDataFrame (seq 0 20)
    [("tag", ObjCol (replicate 20 (Some "t")));
     ("x", NumCol (num <$> [5; 3; 20; 1; 2; 4; 6; 7; 8; 9; 10; 11; 12; 13;
                            14; 15; 16; 17; 18; 19]%Z))].

(** ** Overview and previews (lines 24-71, 84-93) *)

Definition isnull (c : column) : list bool :=
  (λ x, bool_decide (x = NA)) <$> cells c.

(** [Series.sum()] of a boolean Series. *)
Definition count_true (m : list bool) : nat :=
  length (filter (λ b, b = true) m).

(** Line 25: [cleaned_df.notnull().sum()]. *)
Definition non_null_counts (df : DataFrame) : list (string * nat) :=
  prod_map id (λ c, count_true (notna c)) <$> data df.

(** Line 70: [cleaned_df.isnull().sum()]. *)
Definition missing_values (df : DataFrame) : list (string * nat) :=
  prod_map id (λ c, count_true (isnull c)) <$> data df.

(** Line 84: [cleaned_df.isnull().sum().sum()]. *)
Definition null_sum_after_drop (df : DataFrame) : nat :=
  sum_list (missing_values df).*2.

(** Line 92: [cleaned_df.columns[cleaned_df.isnull().any()]]. *)
Definition columns_with_missing (df : DataFrame) : list string :=
  (filter (λ p, true ∈ isnull p.2) (data df)).*1.

Definition col_map (f : ∀ A, list A → list A) (c : column) : column :=
  match c with
  | NumCol v => NumCol (f _ v)
  | ObjCol v => ObjCol (f _ v)
  end.

(** Lines 47-48: [df.head(n)] is [df.iloc[:n]]; [df.tail(n)] is
    [df.iloc[-n:]], and the empty slice for [n = 0]. *)
Definition head_df (n : nat) (df : DataFrame) : DataFrame :=
  mkDataFrame (take n (index df)) (prod_map id (col_map (λ A, take n)) <$> data df).

Definition tail_df (n : nat) (df : DataFrame) : DataFrame :=
  mkDataFrame (drop (nrows df - n) (index df))
    (prod_map id (col_map (λ A, drop (nrows df - n))) <$> data df).

(** ** One run of the script (lines 10-134) *)

(** What the widgets return in a run: the file uploader (with the table
    that [pd.read_csv] makes of the file), the checkbox of line 75, the
    multiselect of line 77, the checkbox of line 103, the selectbox of line
    105 and the Clean Data button. *)
Record widgets := mkWidgets {
  uploaded_file : option DataFrame;
  drop_checkbox : bool;
  columns_to_drop_missing : list string;
  handle_outliers : bool;
  outlier_method : string;
  clean_button : bool
}.

(** The session state that a run leaves.  Nothing runs without an uploaded
    file (line 12).  An exception ends the run and keeps the assignments to
    the session state made before it.  The display calls (lines 20-71,
    80-100, 107-111, 135-142) are taken to return. *)
Definition run (w : widgets) (ss : session_state) : session_state :=
  match uploaded_file w with
  | None => ss
  | Some df =>
      let ss1 := init_session df ss in
      match ss1 !! "cleaned_df" with
      | None => ss1
      | Some t =>
          match drop_missing_step (drop_checkbox w) (columns_to_drop_missing w) t with
          | None => ss1
          | Some t1 =>
              let ss2 := <["cleaned_df" := t1]> ss1 in
              if clean_button w
              then default ss2 (clean_click (handle_outliers w) (outlier_method w) ss2)
              else ss2
          end
      end
  end.

(** A sequence of runs, one per user action. *)
Definition runs (ws : list widgets) (ss : session_state) : session_state :=
  foldl (λ s w, run w s) ss ws.

(** Every table held in the session is well formed. *)
Definition session_wf (ss : session_state) : Prop :=
  ∀ t, ss !! "cleaned_df" = Some t → wf t.

(** The labels and dtypes of the columns. *)
Definition schema (df : DataFrame) : list (string * bool) :=
  prod_map id is_numeric <$> data df.

(** The positions at which two columns differ. *)
Definition differing (a b : list (option Qc)) : list nat :=
  filter (λ i, a !! i ≠ b !! i) (seq 0 (length a)).

(** Twenty numeric cells and what winsorizing makes of them. *)
Definition twenty_values : list (option Qc) :=
  num <$> [5; 3; 20; 1; 2; 4; 6; 7; 8; 9; 10; 11; 12; 13;
           14; 15; 16; 17; 18; 19]%Z.

Definition twenty_winsorized : list (option Qc) :=
  num <$> [5; 3; 19; 2; 2; 4; 6; 7; 8; 9; 10; 11; 12; 13;
           14; 15; 16; 17; 18; 19]%Z.

(** Widget values of two runs. *)
Definition upload_people : widgets :=
  mkWidgets (Some people) true ["age"] false "Winsorize" false.

Definition upload_six : widgets :=
  mkWidgets (Some six) false [] true "Remove outliers" true.


(** ** Generic facts on masks and the row view *)

Lemma take_mask_nil_r {A} (m : list bool) : take_mask m (@nil A) = [].
Proof. by destruct m. Qed.

Lemma take_mask_fmap {A B} (f : A → B) m (l : list A) :
  take_mask m (f <$> l) = f <$> take_mask m l.
Proof.
  revert l. induction m as [|b m IH]; intros [|x l]; simpl; try done.
  destruct b; simpl; by rewrite IH.
Qed.

Lemma take_mask_filter {A} (P : A → Prop) `{!∀ x, Decision (P x)} (l : list A) :
  take_mask ((λ x, bool_decide (P x)) <$> l) l = filter P l.
Proof.
  induction l as [|x l IH]; simpl; [done|].
  rewrite filter_cons. destruct (decide (P x)) as [HP|HP].
  - rewrite bool_decide_true by done. f_equal. apply IH.
  - rewrite bool_decide_false by done. apply IH.
Qed.

Lemma take_mask_sublist {A} m (l : list A) : take_mask m l `sublist_of` l.
Proof.
  revert l. induction m as [|b m IH]; intros [|x l]; simpl;
    try apply sublist_nil_l.
  destruct b; [by apply sublist_skip | by apply sublist_cons].
Qed.

Lemma take_mask_length {A} m (l : list A) : length (take_mask m l) ≤ length l.
Proof. apply sublist_length, take_mask_sublist. Qed.

Lemma take_mask_head_tail {A} b m (v : list A) :
  take_mask (b :: m) v =
    (if b then option_list (head v) else []) ++ take_mask m (tail v).
Proof. destruct v as [|x v], b; simpl; by rewrite ?take_mask_nil_r. Qed.

Lemma rows_aux_mask m idx d :
  rows_aux (take_mask m idx) (prod_map id (take_mask m) <$> d)
  = take_mask m (rows_aux idx d).
Proof.
  revert idx d. induction m as [|b m IH]; intros [|l idx] d; try done.
  assert (prod_map id (take_mask (b :: m)) <$> d
    = prod_map id (λ v, (if b then option_list (head v) else [])
                          ++ take_mask m (tail v)) <$> d) as Hd.
  { apply list_fmap_ext. intros _ [c v] _. unfold prod_map. simpl fst.
    simpl snd. by rewrite take_mask_head_tail. }
  rewrite Hd. clear Hd. cbn [take_mask rows_aux]. rewrite <-IH.
  destruct b; cbn [rows_aux].
  - f_equal.
    + f_equal. rewrite <-list_fmap_compose. apply list_fmap_ext.
      intros _ [c [|x v]] _; simpl; by rewrite ?take_mask_nil_r.
    + f_equal. rewrite <-!list_fmap_compose.
      apply list_fmap_ext. intros _ [c [|x v]] _; simpl; by rewrite ?take_mask_nil_r.
  - f_equal. rewrite <-!list_fmap_compose.
    apply list_fmap_ext. by intros _ [c v] _.
Qed.

Lemma cells_col_mask m c : cells (col_mask m c) = take_mask m (cells c).
Proof. destruct c; simpl; by rewrite take_mask_fmap. Qed.

(** Boolean indexing selects the rows at the true positions of the mask. *)
Lemma rows_loc_mask m df : rows (loc_mask m df) = take_mask m (rows df).
Proof.
  unfold rows, loc_mask. simpl. rewrite <-rows_aux_mask. f_equal.
  rewrite <-!list_fmap_compose. apply list_fmap_ext.
  intros _ [c col] _. simpl. by rewrite cells_col_mask.
Qed.

Lemma columns_loc_mask m df : columns (loc_mask m df) = columns df.
Proof.
  unfold columns, loc_mask. simpl. rewrite <-list_fmap_compose.
  apply list_fmap_ext. by intros _ [c col] _.
Qed.

Lemma rows_length df : length (rows df) = nrows df.
Proof.
  unfold rows, nrows. generalize (prod_map id cells <$> data df).
  induction (index df) as [|l idx IH]; intros d; simpl; [done|].
  by rewrite IH.
Qed.

Lemma rows_aux_lookup idx d i :
  rows_aux idx d !! i
  = (λ l, (l, prod_map id (λ v, default NA (v !! i)) <$> d)) <$> idx !! i.
Proof.
  revert d i. induction idx as [|l idx IH]; intros d [|i]; simpl; try done.
  - do 2 f_equal. apply list_fmap_ext. by intros _ [c [|x v]] _.
  - rewrite IH. destruct (idx !! i); simpl; [|done]. do 2 f_equal.
    rewrite <-list_fmap_compose. apply list_fmap_ext.
    by intros _ [c [|x v]] _.
Qed.

Lemma rows_lookup df i :
  rows df !! i = (λ l, (l, row_at df i)) <$> index df !! i.
Proof.
  unfold rows, row_at. rewrite rows_aux_lookup.
  destruct (index df !! i); simpl; [|done]. do 2 f_equal.
  rewrite <-list_fmap_compose. apply list_fmap_ext. by intros _ [c col] _.
Qed.

Lemma all_axis1_length n cols :
  Forall (λ c, length c = n) cols → length (all_axis1 n cols) = n.
Proof.
  unfold all_axis1. induction 1 as [|c cols Hc _ IH]; simpl.
  - by rewrite length_replicate.
  - rewrite length_zip_with. lia.
Qed.


Lemma all_axis1_lookup n cols i :
  Forall (λ c, length c = n) cols → i < n →
  ∃ b, all_axis1 n cols !! i = Some b
       ∧ (b = true ↔ Forall (λ c, c !! i = Some true) cols).
Proof.
  intros Hlen Hi. unfold all_axis1.
  induction Hlen as [|c cols Hc _ (b & Hb & IH)]; simpl.
  - exists true. rewrite lookup_replicate_2 by done. by split.
  - destruct (lookup_lt_is_Some_2 c i) as [x Hx]; [lia|].
    exists (x && b). rewrite lookup_zip_with, Hx, Hb. split; [done|].
    rewrite andb_true_iff, Forall_cons, IH, Hx. intuition congruence.
Qed.


Lemma notna_length c : length (notna c) = col_len c.
Proof. unfold notna, col_len. by rewrite length_fmap. Qed.

(** The mask that [dropna] computes marks the rows that are non-null in
    every column of the subset. *)
Lemma dropna_mask_rows C df :
  wf df →
  all_axis1 (nrows df) (notna <$> (filter (λ p, p.1 ∈ C) (data df)).*2)
  = (λ r, bool_decide (non_null_in C r)) <$> rows df.
Proof.
  intros Hwf.
  assert (Forall (λ c, length c = nrows df)
            (notna <$> (filter (λ p, p.1 ∈ C) (data df)).*2)) as Hlen.
  { rewrite Forall_fmap, Forall_fmap. apply Forall_forall.
    intros p [_ Hp]%list_elem_of_filter. simpl. rewrite notna_length.
    revert Hwf. unfold wf. rewrite Forall_forall. intros Hwf. by apply Hwf. }
  apply list_eq. intros i. destruct (decide (i < nrows df)) as [Hi|Hi].
  - destruct (all_axis1_lookup _ _ i Hlen Hi) as (b & -> & Hb).
    rewrite list_lookup_fmap, rows_lookup.
    destruct (lookup_lt_is_Some_2 (index df) i Hi) as [l ->]. simpl.
    f_equal. apply eq_bool_prop_intro. rewrite Is_true_true, Hb.
    rewrite bool_decide_spec. unfold non_null_in, row_at. simpl.
    rewrite !Forall_fmap. rewrite !Forall_forall. split.
    + intros H [c col] Hin HC. simpl in *.
      specialize (H (c, col)). simpl in H.
      rewrite list_elem_of_filter in H. specialize (H (conj HC Hin)).
      unfold notna in H. rewrite list_lookup_fmap in H.
      destruct (cells col !! i) as [x|]; simpl in *; [|done].
      injection H as H. by apply bool_decide_eq_true in H.
    + intros H [c col] [HC Hin]%list_elem_of_filter. simpl in *.
      specialize (H (c, col) Hin HC). simpl in H.
      unfold notna. rewrite list_lookup_fmap.
      assert (is_Some (cells col !! i)) as [x Hx].
      { apply lookup_lt_is_Some_2. revert Hwf. unfold wf.
        rewrite Forall_forall. intros Hwf. specialize (Hwf _ Hin).
        simpl in Hwf. unfold col_len in Hwf. lia. }
      rewrite Hx in *. simpl in *. f_equal. by apply bool_decide_eq_true.
  - rewrite !lookup_ge_None_2; [done| |].
    + rewrite length_fmap, rows_length. lia.
    + rewrite all_axis1_length by done. lia.
Qed.

(** ** The order on numeric cells *)

Global Instance nan_le_refl : Reflexive nan_le.
Proof. intros [a|]; simpl; [apply Qcle_refl|done]. Qed.

Global Instance nan_le_trans : Transitive nan_le.
Proof.
  intros [a|] [b|] [c|]; simpl; try done. apply Qcle_trans.
Qed.

Global Instance nan_le_total : Total nan_le.
Proof.
  intros [a|] [b|]; simpl; auto. destruct (Qc_le_total a b); auto.
Qed.

Global Instance nan_le_antisym : AntiSymm (=) nan_le.
Proof.
  intros [a|] [b|]; simpl; try done. intros H1 H2. f_equal.
  by apply Qcle_antisym.
Qed.

Global Instance key_le_trans : Transitive key_le.
Proof. intros p q r. unfold key_le. apply nan_le_trans. Qed.

Global Instance key_le_total : Total key_le.
Proof. intros p q. unfold key_le. apply nan_le_total. Qed.

Lemma nan_lt_le x y : nan_lt x y → nan_le x y.
Proof. unfold nan_lt. destruct (nan_le_total x y); tauto. Qed.

Lemma nan_le_not_lt x y : nan_le x y → ¬ nan_lt y x.
Proof. unfold nan_lt. tauto. Qed.

Lemma nan_not_lt_le x y : ¬ nan_lt x y → nan_le y x.
Proof. unfold nan_lt. destruct (decide (nan_le y x)); tauto. Qed.

(** ** Clipping *)

Lemma clip_le lo hi x : nan_le x lo → nan_le lo hi → clip lo hi x = lo.
Proof.
  intros Hx Hlh. unfold clip. destruct (decide (nan_lt x lo)); [done|].
  assert (x = lo) as -> by (apply (anti_symm nan_le); auto using nan_not_lt_le).
  destruct (decide (nan_lt hi lo)) as [H|]; [|done].
  by destruct (nan_le_not_lt _ _ Hlh).
Qed.

Lemma clip_ge lo hi x : nan_le hi x → nan_le lo hi → clip lo hi x = hi.
Proof.
  intros Hx Hlh. unfold clip. destruct (decide (nan_lt x lo)) as [H|].
  { destruct (nan_le_not_lt lo x); [by etrans|done]. }
  destruct (decide (nan_lt hi x)); [done|].
  apply (anti_symm nan_le); auto using nan_not_lt_le.
Qed.

Lemma clip_between lo hi x : nan_le lo x → nan_le x hi → clip lo hi x = x.
Proof.
  intros H1 H2. unfold clip.
  destruct (decide (nan_lt x lo)) as [H|]; [by destruct (nan_le_not_lt _ _ H1)|].
  destruct (decide (nan_lt hi x)) as [H|]; [by destruct (nan_le_not_lt _ _ H2)|].
  done.
Qed.

Lemma clip_mono lo hi x y :
  nan_le lo hi → nan_le x y → nan_le (clip lo hi x) (clip lo hi y).
Proof.
  intros Hlh Hxy. destruct (nan_le_total x lo) as [Hx|Hx].
  - rewrite (clip_le lo hi x) by done. destruct (nan_le_total y lo).
    + by rewrite clip_le.
    + destruct (nan_le_total y hi).
      * by rewrite clip_between.
      * by rewrite clip_ge.
  - destruct (nan_le_total x hi) as [Hx'|Hx'].
    + rewrite (clip_between lo hi x) by done.
      destruct (nan_le_total y hi).
      * rewrite clip_between; [done|by etrans|done].
      * by rewrite clip_ge.
    + rewrite (clip_ge lo hi x) by done.
      rewrite (clip_ge lo hi y); [done|by etrans|done].
Qed.

Lemma clip_idemp lo hi x :
  nan_le lo hi → clip lo hi (clip lo hi x) = clip lo hi x.
Proof.
  intros Hlh. destruct (nan_le_total x lo) as [Hx|Hx].
  - rewrite (clip_le lo hi x) by done. by apply clip_le.
  - destruct (nan_le_total x hi) as [Hx'|Hx'].
    + rewrite (clip_between lo hi x) by done. by apply clip_between.
    + rewrite (clip_ge lo hi x) by done. by apply clip_ge.
Qed.

(** ** Sorted lists and order statistics *)

Lemma StronglySorted_lookup_le {A} (R : relation A) `{!Reflexive R} l i j x y :
  StronglySorted R l → i ≤ j → l !! i = Some x → l !! j = Some y → R x y.
Proof.
  intros Hs. revert i j. induction Hs as [|z l Hs IH Hz]; intros i j Hij Hi Hj.
  { by rewrite lookup_nil in Hi. }
  destruct i as [|i], j as [|j]; simpl in *; simplify_eq; try lia.
  - done.
  - rewrite Forall_forall in Hz. apply Hz. by eapply list_elem_of_lookup_2.
  - apply (IH i j); [lia|done..].
Qed.

Lemma fmap_lookup_total_seq {A} `{!Inhabited A} (a : list A) :
  (a !!!.) <$> seq 0 (length a) = a.
Proof.
  apply list_eq. intros i. rewrite list_lookup_fmap.
  destruct (decide (i < length a)) as [Hi|Hi].
  - rewrite lookup_seq_lt by done. simpl.
    by rewrite (list_lookup_lookup_total_lt a i).
  - rewrite lookup_seq_ge by lia. by rewrite lookup_ge_None_2 by lia.
Qed.

Lemma sorts_merge_sort idx a :
  sorts idx a → (a !!!.) <$> idx = merge_sort nan_le a.
Proof.
  intros [Hp Hs]. apply (Sorted_unique nan_le); [done| |].
  - apply Sorted_merge_sort, _.
  - rewrite merge_sort_Permutation, Hp. by rewrite fmap_lookup_total_seq.
Qed.

Lemma argsort_sorts a : sorts (argsort a) a.
Proof.
  unfold argsort, sorts. split.
  - rewrite merge_sort_Permutation. rewrite snd_zip; [done|].
    by rewrite length_seq.
  - assert (Forall (λ p, a !!! p.2 = p.1)
              (merge_sort key_le (zip a (seq 0 (length a))))) as Hall.
    { rewrite merge_sort_Permutation. apply Forall_forall.
      intros [x i] (j & Hj)%list_elem_of_lookup_1.
      rewrite lookup_zip_with_Some in Hj.
      destruct Hj as (x' & i' & [= <- <-] & Hx & Hi). simpl.
      apply lookup_seq in Hi as [-> _]. simpl.
      by apply list_lookup_total_correct. }
    rewrite <-list_fmap_compose.
    rewrite (Forall_fmap_ext_1 ((a !!!.) ∘ snd) fst) by done.
    eapply Sorted_fmap, Sorted_merge_sort, _. done.
Qed.

Lemma sorts_length idx a : sorts idx a → length idx = length a.
Proof. intros [Hp _]. by rewrite Hp, length_seq. Qed.

Lemma sorts_NoDup idx a : sorts idx a → NoDup idx.
Proof. intros [Hp _]. rewrite Hp. apply NoDup_seq. Qed.

Lemma sorts_lt idx a j i : sorts idx a → idx !! j = Some i → i < length a.
Proof.
  intros [Hp _] Hj. apply list_elem_of_lookup_2 in Hj. rewrite Hp in Hj.
  apply elem_of_seq in Hj. lia.
Qed.

Lemma sorts_position idx a i :
  sorts idx a → i < length a → ∃ j, idx !! j = Some i.
Proof.
  intros [Hp _] Hi. apply list_elem_of_lookup_1. rewrite Hp.
  apply elem_of_seq. lia.
Qed.

(** The cell at rank [j], read through a valid argsort. *)
Lemma sorts_kth idx a j i :
  sorts idx a → idx !! j = Some i → a !! i = Some (kth_smallest j a).
Proof.
  intros Hs Hj. unfold kth_smallest. rewrite <-(sorts_merge_sort idx a Hs).
  rewrite list_lookup_fmap, Hj. simpl.
  apply list_lookup_lookup_total_lt. by eapply sorts_lt.
Qed.

Lemma kth_smallest_le a j1 j2 :
  j1 ≤ j2 → j2 < length a → nan_le (kth_smallest j1 a) (kth_smallest j2 a).
Proof.
  intros Hj Hlen. unfold kth_smallest.
  assert (length (merge_sort nan_le a) = length a) as Hl
    by by rewrite merge_sort_Permutation.
  destruct (lookup_lt_is_Some_2 (merge_sort nan_le a) j1) as [x Hx]; [lia|].
  destruct (lookup_lt_is_Some_2 (merge_sort nan_le a) j2) as [y Hy]; [lia|].
  rewrite Hx, Hy. simpl.
  apply (StronglySorted_lookup_le nan_le (merge_sort nan_le a) j1 j2);
    [|done..].
  apply StronglySorted_merge_sort; apply _.
Qed.

(** ** Assignment through an array of positions *)

Lemma length_set_at {A} js (x : A) a : length (set_at js x a) = length a.
Proof. induction js as [|j js IH]; simpl; [done|]. by rewrite length_insert. Qed.

Lemma set_at_lookup {A} js (x : A) a i :
  i < length a →
  set_at js x a !! i = if decide (i ∈ js) then Some x else a !! i.
Proof.
  intros Hi. induction js as [|j js IH]; cbn [set_at foldr].
  - destruct (decide (i ∈ [])) as [Hin|]; [|done].
    by apply elem_of_nil in Hin.
  - fold (set_at js x a). destruct (decide (i = j)) as [->|Hij].
    + rewrite list_lookup_insert_eq by by rewrite length_set_at.
      rewrite decide_True; [done|]. by left.
    + rewrite list_lookup_insert_ne by done. rewrite IH.
      destruct (decide (i ∈ js)) as [Hin|Hin].
      * rewrite decide_True; [done|]. by right.
      * rewrite decide_False; [done|]. rewrite elem_of_cons. tauto.
Qed.

Lemma NoDup_elem_of_take {A} (l : list A) k j x :
  NoDup l → l !! j = Some x → x ∈ take k l ↔ j < k.
Proof.
  intros Hnd Hj. rewrite elem_of_take. split.
  - intros (j' & Hj' & Hlt). by rewrite (NoDup_lookup l j j' x).
  - intros Hlt. eauto.
Qed.

Lemma NoDup_elem_of_drop {A} (l : list A) k j x :
  NoDup l → l !! j = Some x → x ∈ drop k l ↔ k ≤ j.
Proof.
  intros Hnd Hj. rewrite list_elem_of_lookup. split.
  - intros (j' & Hj'). rewrite lookup_drop in Hj'.
    rewrite (NoDup_lookup l j (k + j') x) by done. lia.
  - intros Hle. exists (j - k). rewrite lookup_drop.
    by replace (k + (j - k)) with j by lia.
Qed.

(** ** Winsorizing one column *)

Lemma cut_le n : 20 * cut n ≤ n.
Proof. unfold cut. apply Nat.Div0.mul_div_le. Qed.

Lemma low_high_cut a : a ≠ [] → nan_le (low_cut a) (high_cut a).
Proof.
  intros Hne. unfold low_cut, high_cut.
  assert (0 < length a) by (destruct a; simpl; [done|lia]).
  pose proof (cut_le (length a)). apply kth_smallest_le; lia.
Qed.

(** Whatever valid argsort is used, winsorizing a non-empty column clips
    every cell between the cells at ranks [cut n] and [n - cut n - 1]. *)
Lemma winsorize1D_clip idx a :
  sorts idx a → a ≠ [] →
  winsorize1D idx a = Some (clip (low_cut a) (high_cut a) <$> a).
Proof.
  intros Hs Hne. unfold winsorize1D, low_cut, high_cut.
  pose proof (low_high_cut a Hne) as Hlh. unfold low_cut, high_cut in Hlh.
  pose proof (cut_le (length a)) as Hk.
  pose proof (sorts_length _ _ Hs) as Hlen.
  pose proof (sorts_NoDup _ _ Hs) as Hnd.
  assert (0 < length a) as Hpos by (destruct a; simpl; [done|lia]).
  set (n := length a) in *. set (k := cut n) in *.
  destruct (lookup_lt_is_Some_2 idx k) as [il Hil]; [lia|].
  destruct (lookup_lt_is_Some_2 idx (n - k - 1)) as [iu Hiu]; [lia|].
  rewrite Hil. simpl. rewrite (sorts_kth _ _ _ _ Hs Hil). simpl.
  rewrite Hiu. simpl.
  rewrite set_at_lookup by by eapply sorts_lt.
  rewrite decide_False by (rewrite (NoDup_elem_of_take idx k (n - k - 1)); [lia|done..]).
  rewrite (sorts_kth _ _ _ _ Hs Hiu). simpl. f_equal.
  apply list_eq. intros i. rewrite list_lookup_fmap.
  destruct (decide (i < n)) as [Hi|Hi].
  - rewrite set_at_lookup by by rewrite length_set_at.
    rewrite set_at_lookup by done.
    destruct (sorts_position idx a i Hs Hi) as [j Hj].
    pose proof (lookup_lt_Some _ _ _ Hj) as Hjn.
    rewrite (sorts_kth _ _ _ _ Hs Hj). simpl.
    destruct (decide (i ∈ drop (n - k) idx)) as [Hd|Hd].
    { rewrite (NoDup_elem_of_drop idx _ j) in Hd by done.
      f_equal. symmetry. apply clip_ge; [|done].
      apply kth_smallest_le; lia. }
    rewrite (NoDup_elem_of_drop idx _ j) in Hd by done.
    destruct (decide (i ∈ take k idx)) as [Ht|Ht].
    { rewrite (NoDup_elem_of_take idx _ j) in Ht by done.
      f_equal. symmetry. apply clip_le; [|done].
      apply kth_smallest_le; lia. }
    rewrite (NoDup_elem_of_take idx _ j) in Ht by done.
    f_equal. symmetry. apply clip_between; apply kth_smallest_le; lia.
  - rewrite !lookup_ge_None_2; [done|lia|].
    rewrite !length_set_at. lia.
Qed.

Lemma winsorize_clip a :
  a ≠ [] → winsorize a = Some (clip (low_cut a) (high_cut a) <$> a).
Proof. intros. apply winsorize1D_clip; [apply argsort_sorts|done]. Qed.

Lemma winsorize_nil : winsorize [] = None.
Proof. reflexivity. Qed.

Lemma winsorize_is_Some a : is_Some (winsorize a) ↔ a ≠ [].
Proof.
  split.
  - intros [b Hb] ->. by rewrite winsorize_nil in Hb.
  - intros Hne. rewrite winsorize_clip by done. eauto.
Qed.

Lemma winsorize_length a b : winsorize a = Some b → length b = length a.
Proof.
  intros Hw. destruct (decide (a = [])) as [->|Hne].
  - by rewrite winsorize_nil in Hw.
  - rewrite winsorize_clip in Hw by done. injection Hw as <-.
    by rewrite length_fmap.
Qed.

(** Order statistics commute with a monotone map of the cells. *)
Lemma kth_smallest_fmap f a j :
  (∀ x y, nan_le x y → nan_le (f x) (f y)) → j < length a →
  kth_smallest j (f <$> a) = f (kth_smallest j a).
Proof.
  intros Hf Hj. unfold kth_smallest.
  assert (merge_sort nan_le (f <$> a) = f <$> merge_sort nan_le a) as ->.
  { apply (Sorted_unique nan_le).
    - apply Sorted_merge_sort, _.
    - eapply Sorted_fmap; [exact Hf|]. apply Sorted_merge_sort, _.
    - by rewrite !merge_sort_Permutation. }
  rewrite list_lookup_fmap.
  destruct (lookup_lt_is_Some_2 (merge_sort nan_le a) j) as [x ->]; [|done].
  by rewrite merge_sort_Permutation.
Qed.

Lemma low_cut_fmap f a :
  (∀ x y, nan_le x y → nan_le (f x) (f y)) → a ≠ [] →
  low_cut (f <$> a) = f (low_cut a).
Proof.
  intros Hf Hne. unfold low_cut. rewrite length_fmap.
  assert (0 < length a) by (destruct a; simpl; [done|lia]).
  pose proof (cut_le (length a)). apply kth_smallest_fmap; [done|lia].
Qed.

Lemma high_cut_fmap f a :
  (∀ x y, nan_le x y → nan_le (f x) (f y)) → a ≠ [] →
  high_cut (f <$> a) = f (high_cut a).
Proof.
  intros Hf Hne. unfold high_cut. rewrite length_fmap.
  assert (0 < length a) by (destruct a; simpl; [done|lia]).
  apply kth_smallest_fmap; [done|lia].
Qed.

(** ** The winsorize loop over a table *)

Lemma getitem_app_here c col d1 d2 :
  c ∉ d1.*1 → getitem c (d1 ++ (c, col) :: d2) = Some col.
Proof.
  induction d1 as [|[c' col'] d1 IH]; simpl; intros Hc.
  - by rewrite decide_True.
  - rewrite not_elem_of_cons in Hc. destruct Hc as [Hne Hc].
    rewrite decide_False by done. by apply IH.
Qed.

Lemma setitem_fresh c col (d : list (string * column)) :
  c ∉ d.*1 → (λ p, if decide (p.1 = c) then (c, col) else p) <$> d = d.
Proof.
  induction d as [|[c' col'] d IH]; simpl; intros Hc; [done|].
  rewrite not_elem_of_cons in Hc. destruct Hc as [Hne Hc].
  rewrite decide_False by done. f_equal. by apply IH.
Qed.

Lemma setitem_app_here idx c col col' d1 d2 :
  c ∉ d1.*1 → c ∉ d2.*1 →
  setitem c col' (mkDataFrame idx (d1 ++ (c, col) :: d2))
  = mkDataFrame idx (d1 ++ (c, col') :: d2).
Proof.
  intros H1 H2. unfold setitem. simpl. f_equal.
  rewrite fmap_app, fmap_cons. simpl. rewrite decide_True by done.
  by rewrite !setitem_fresh.
Qed.

(** The loop visits the numeric columns from left to right; with distinct
    column labels each visit rewrites the one column it reads. *)
Lemma winsorize_loop_columns idx d1 d2 :
  NoDup (d1 ++ d2).*1 →
  winsorize_loop (filter (λ p, is_numeric p.2 = true) d2).*1
    (mkDataFrame idx (d1 ++ d2))
  = d2' ← mapM (λ p, match p.2 with
                     | NumCol v => v' ← winsorize v; Some (p.1, NumCol v')
                     | ObjCol _ => Some p
                     end) d2;
    Some (mkDataFrame idx (d1 ++ d2')).
Proof.
  revert d1. induction d2 as [|[c col] d2 IH]; intros d1 Hnd.
  { done. }
  assert ((c ∉ d1.*1) ∧ (c ∉ d2.*1)) as [Hc1 Hc2].
  { rewrite fmap_app, fmap_cons in Hnd. simpl in Hnd.
    apply NoDup_app in Hnd as (_ & Hd & Hnd2).
    apply NoDup_cons in Hnd2 as [Hc2 _]. split; [|done].
    intros Hc1. apply (Hd c Hc1). by left. }
  destruct col as [v|v].
  - rewrite filter_cons_True by done. cbn [fmap list_fmap fst winsorize_loop].
    cbn [data]. rewrite getitem_app_here by done.
    cbn [mapM snd fst]. destruct (winsorize v) as [v'|]; simpl; [|done].
    rewrite setitem_app_here by done.
    rewrite (cons_middle _ d1 d2), (assoc_L (++)). rewrite IH.
    + destruct (mapM _ d2) as [d2'|]; simpl; [|done].
      by rewrite <-(assoc_L (++)).
    + rewrite <-(assoc_L (++)). rewrite fmap_app, fmap_cons in *. done.
  - rewrite filter_cons_False by done.
    cbn [mapM snd fst]. simpl.
    rewrite (cons_middle _ d1 d2), (assoc_L (++)). rewrite IH.
    + destruct (mapM _ d2) as [d2'|]; simpl; [|done].
      by rewrite <-(assoc_L (++)).
    + by rewrite <-(assoc_L (++)).
Qed.

Lemma winsorize_df_mapM df :
  NoDup (columns df) →
  winsorize_df df
  = d' ← mapM (λ p, match p.2 with
                    | NumCol v => v' ← winsorize v; Some (p.1, NumCol v')
                    | ObjCol _ => Some p
                    end) (data df);
    Some (mkDataFrame (index df) d').
Proof.
  intros Hnd. unfold winsorize_df, numeric_columns.
  destruct df as [idx d]. simpl. by apply (winsorize_loop_columns idx []).
Qed.

Lemma winsorize_columns_mapM (d : list (string * column)) :
  Forall (λ p, is_numeric p.2 = true → col_len p.2 ≠ 0) d →
  mapM (λ p, match p.2 with
             | NumCol v => v' ← winsorize v; Some (p.1, NumCol v')
             | ObjCol _ => Some p
             end) d
  = Some (prod_map id winsorized_column <$> d).
Proof.
  induction 1 as [|[c [v|v]] d Hp _ IH]; [done|..]; cbn [mapM snd fst].
  - rewrite winsorize_clip.
    + simpl. by rewrite IH.
    + intros ->. by apply Hp.
  - simpl. by rewrite IH.
Qed.

Lemma winsorize_df_total df :
  wf df → NoDup (columns df) → nrows df ≠ 0 ∨ numeric_columns df = [] →
  winsorize_df df
  = Some (mkDataFrame (index df) (prod_map id winsorized_column <$> data df)).
Proof.
  intros Hwf Hnd Hne. rewrite winsorize_df_mapM by done.
  rewrite winsorize_columns_mapM; [done|].
  apply Forall_forall. intros p Hp Hnum.
  destruct Hne as [Hne|Hne].
  - unfold wf in Hwf. rewrite Forall_forall in Hwf. by rewrite Hwf.
  - unfold numeric_columns in Hne. apply fmap_nil_inv in Hne.
    assert (p ∈ filter (λ p, is_numeric p.2 = true) (data df)) as Hin
      by by apply list_elem_of_filter.
    rewrite Hne in Hin. by apply elem_of_nil in Hin.
Qed.

(** A numeric column of a table without rows stops the loop: reading
    [idx[0]] of the empty argsort raises IndexError. *)
Lemma winsorize_df_empty df :
  wf df → NoDup (columns df) → nrows df = 0 → numeric_columns df ≠ [] →
  winsorize_df df = None.
Proof.
  intros Hwf Hnd Hn Hnum. rewrite winsorize_df_mapM by done.
  unfold numeric_columns, wf in *. rewrite Hn in Hwf. clear Hnd Hn.
  assert (filter (λ p, is_numeric p.2 = true) (data df) ≠ []) as Hf
    by (by intros Hf; rewrite Hf in Hnum).
  clear Hnum. destruct df as [idx d]. simpl in *.
  assert (mapM (λ p, match p.2 with
                     | NumCol v => v' ← winsorize v; Some (p.1, NumCol v')
                     | ObjCol _ => Some p
                     end) d = None) as ->; [|done].
  induction Hwf as [|[c [v|v]] d Hp _ IH]; [done|..]; cbn [mapM snd fst].
  - destruct v; [done|]. discriminate Hp.
  - rewrite filter_cons_False in Hf by done. simpl.
    by rewrite IH.
Qed.

Lemma winsorized_column_len c : col_len (winsorized_column c) = col_len c.
Proof. destruct c; unfold col_len; simpl; [|done]. by rewrite !length_fmap. Qed.

Lemma columns_winsorized (d : list (string * column)) :
  (prod_map id winsorized_column <$> d).*1 = d.*1.
Proof.
  induction d as [|[c col] d IH]; [done|]. rewrite !fmap_cons, IH. done.
Qed.

(** ** The IQR filter *)

Lemma zip_with_fmap_diag {A B C D} (f : B → C → D) (g : A → B) (h : A → C) l :
  zip_with f (g <$> l) (h <$> l) = (λ x, f (g x) (h x)) <$> l.
Proof. induction l as [|x l IH]; [done|]. rewrite !fmap_cons. simpl. by rewrite IH. Qed.

Lemma df_quantile_numeric q df :
  all_numeric df →
  df_quantile q df = Some ((λ p, quantile q (nums p.2)) <$> data df).
Proof.
  unfold df_quantile, all_numeric.
  induction 1 as [|[c [v|v]] d Hp _ IH]; [done|..]; cbn [mapM snd].
  - rewrite IH. done.
  - discriminate Hp.
Qed.

Lemma df_quantile_Some q df Q : df_quantile q df = Some Q → all_numeric df.
Proof.
  unfold df_quantile, all_numeric. revert Q.
  induction (data df) as [|[c [v|v]] d IH]; intros Q; cbn [mapM snd].
  - constructor.
  - destruct (mapM _ d) as [Q'|]; [|done]. intros _.
    constructor; [done|by eapply IH].
  - done.
Qed.

Lemma cmp_frame_numeric cmp df (s : string * column → option Qc) :
  all_numeric df →
  cmp_frame cmp df (s <$> data df)
  = Some ((λ p, (λ x, cmp x (s p)) <$> nums p.2) <$> data df).
Proof.
  unfold cmp_frame, all_numeric.
  induction 1 as [|[c [v|v]] d Hp _ IH]; [done|..];
    cbn [fmap list_fmap zip zip_with mapM snd fst].
  - change (mapM ?f (zip_with pair (snd <$> d) (s <$> d)))
      with (mapM f (zip d.*2 (s <$> d))).
    rewrite IH. done.
  - discriminate Hp.
Qed.

(** On a table whose columns are all numeric the filter keeps the rows that
    no column flags. *)
Lemma iqr_remove_numeric df :
  all_numeric df →
  iqr_remove df
  = Some (loc_mask
            (negb <$> any_axis1 (nrows df)
                        ((λ p, outlier_flags (nums p.2)) <$> data df)) df).
Proof.
  intros Hnum. unfold iqr_remove.
  rewrite !df_quantile_numeric by done. cbn [mbind option_bind].
  rewrite !zip_with_fmap_diag, <-!list_fmap_compose.
  rewrite !zip_with_fmap_diag.
  rewrite !cmp_frame_numeric by done. cbn [mbind option_bind].
  unfold or_frame. rewrite zip_with_fmap_diag. do 4 f_equal.
  apply list_fmap_ext. intros _ [c col] _. simpl.
  by rewrite zip_with_fmap_diag.
Qed.

Lemma iqr_remove_Some df df' : iqr_remove df = Some df' → all_numeric df.
Proof.
  unfold iqr_remove. destruct (df_quantile q025 df) as [Q1|] eqn:HQ1; [|done].
  intros _. by eapply df_quantile_Some.
Qed.


(** *** The filter over float64 arithmetic *)

Lemma iqr_remove_exact df : iqr_remove_with exact_arith df = iqr_remove df.
Proof. reflexivity. Qed.









(** ** Column labels *)

Lemma columns_setitem c col df : columns (setitem c col df) = columns df.
Proof.
  unfold columns, setitem. simpl.
  induction (data df) as [|[c' col'] d IH]; [done|].
  rewrite !fmap_cons, IH. simpl. by destruct (decide (c' = c)) as [->|].
Qed.

Lemma columns_winsorize_loop cs df df' :
  winsorize_loop cs df = Some df' → columns df' = columns df.
Proof.
  revert df. induction cs as [|c cs IH]; intros df; simpl.
  - by intros [= ->].
  - destruct (getitem c (data df)) as [[v|v]|]; [|done..].
    destruct (winsorize v) as [v'|]; simpl; [|done].
    intros H%IH. by rewrite H, columns_setitem.
Qed.

Lemma dropna_Some C df df' :
  dropna C df = Some df' → ∃ mask, df' = loc_mask mask df.
Proof. unfold dropna. case_decide; [|done]. intros [= <-]. eauto. Qed.

Lemma iqr_remove_loc_mask df df' :
  iqr_remove df = Some df' → ∃ mask, df' = loc_mask mask df.
Proof.
  intros H. pose proof (iqr_remove_Some _ _ H) as Hnum.
  rewrite iqr_remove_numeric in H by done. injection H as <-. eauto.
Qed.

Lemma all_numeric_loc_mask mask df :
  all_numeric df → all_numeric (loc_mask mask df).
Proof.
  unfold all_numeric, loc_mask. simpl. rewrite Forall_fmap.
  intros H. eapply Forall_impl; [exact H|]. by intros [c [v|v]].
Qed.

Lemma nrows_loc_mask mask df : nrows (loc_mask mask df) ≤ nrows df.
Proof. unfold nrows, loc_mask. simpl. apply take_mask_length. Qed.

Lemma init_session_lookup df (ss : session_state) :
  init_session df ss !! "cleaned_df" = Some (default df (ss !! "cleaned_df")).
Proof.
  unfold init_session. destruct (ss !! "cleaned_df") as [old|] eqn:H.
  - by rewrite H.
  - by rewrite lookup_insert_eq.
Qed.

(** * The claims *)

(** C1. For a working table and a non-empty selection [C] of its column
    labels, the missing-value drop returns the table made of exactly the
    rows that are non-null in every column of [C]: every row of the result
    is non-null in every column of [C], and the result has at most as many
    rows as the input. *)
Theorem drop_missing_rows df C :
  wf df → C ≠ [] → C ⊆ columns df →
  ∃ df', drop_missing_step true C df = Some df' ∧
    rows df' = filter (non_null_in C) (rows df) ∧
    Forall (non_null_in C) (rows df') ∧
    nrows df' ≤ nrows df.
Proof.
  intros Hwf Hne Hsub. destruct C as [|c C]; [done|].
  unfold drop_missing_step, dropna. rewrite decide_True by done.
  eexists. split; [done|].
  rewrite rows_loc_mask, dropna_mask_rows, take_mask_filter by done.
  split; [done|]. split.
  - apply Forall_forall. by intros r [? _]%list_elem_of_filter.
  - apply nrows_loc_mask.
Qed.

Lemma drop_missing_rows_witness :
  wf people ∧ ["age"] ≠ [] ∧ ["age"] ⊆ columns people ∧
  ∃ df', drop_missing_step true ["age"] people = Some df' ∧
    rows df' = filter (non_null_in ["age"]) (rows people) ∧
    Forall (non_null_in ["age"]) (rows df') ∧
    nrows df' ≤ nrows people.
Proof.
  assert (wf people) as Hwf by (repeat constructor).
  assert (["age"] ⊆ columns people) as Hsub.
  { intros c Hc%list_elem_of_singleton. subst c. vm_compute.
    right. left. }
  split; [done|]. split; [done|]. split; [done|].
  by apply (drop_missing_rows people ["age"]).
Defined.




(** C2 (the code departs from the claim).  The selectbox offers the label
    "Remove outliers", but line 124 tests for "Remove": with that label
    chosen, Clean Data leaves every table as it is.  On [six] the IQR filter
    would have dropped the last row; the click leaves [six] as the Working
    Table. *)
Theorem remove_outliers_label_not_applied :
  "Remove outliers" ∈ outlier_methods ∧
  (∀ df, clean_data true "Remove outliers" df = Some df) ∧
  clean_click true "Remove outliers" (init_session six ∅)
    = Some (init_session six ∅) ∧
  iqr_remove six = Some six_pass1 ∧
  nrows six_pass1 < nrows six.
Proof.
  split; [|split; [|split; [|split]]].
  - unfold outlier_methods. set_solver.
  - intros df. reflexivity.
  - vm_compute. reflexivity.
  - vm_compute. reflexivity.
  - vm_compute. lia.
Qed.

(** C4, as stated, at [ten]: clipping at the 5th and 95th percentiles would
    raise the 1 and lower the 10, but the winsorize loop returns the table
    unchanged. *)
Lemma winsorize_is_not_percentile_clip :
  winsorize_df ten = Some ten ∧
  winsorize ten_values = Some ten_values ∧
  percentile_clip ten_values ≠ ten_values.
Proof.
  split; [|split].
  - vm_compute. reflexivity.
  - vm_compute. reflexivity.
  - intros H.
    apply (f_equal (λ l, this <$> (l !! 0 ≫= id))) in H.
    vm_compute in H. discriminate H.
Qed.

(** C4, amended.  On a table with distinct column labels that has a row (or
    no numeric column), the winsorize loop keeps the index, replaces every
    numeric column by its cells clipped between the cell at rank [cut n] and
    the cell at rank [n - cut n - 1] of that column in ascending order
    (NaN last), and leaves every other column unchanged; the clipped column
    is the same for every valid argsort of the column. *)
Theorem winsorize_df_clips df :
  wf df → NoDup (columns df) → nrows df ≠ 0 ∨ numeric_columns df = [] →
  ∃ df', winsorize_df df = Some df' ∧
    index df' = index df ∧
    nrows df' = nrows df ∧
    data df' = prod_map id winsorized_column <$> data df ∧
    ∀ c v idx, (c, NumCol v) ∈ data df → sorts idx v →
      winsorize1D idx v = Some (clip (low_cut v) (high_cut v) <$> v).
Proof.
  intros Hwf Hnd Hne. rewrite winsorize_df_total by done.
  eexists. split; [done|]. repeat split.
  intros c v idx Hin Hs. apply winsorize1D_clip; [done|].
  intros ->. destruct Hne as [Hne|Hne].
  - unfold wf in Hwf. rewrite Forall_forall in Hwf.
    apply Hne. by rewrite <-(Hwf _ Hin).
  - unfold numeric_columns in Hne. apply fmap_nil_inv in Hne.
    assert ((c, NumCol []) ∈ filter (λ p, is_numeric p.2 = true) (data df))
      as Hf by by apply list_elem_of_filter.
    rewrite Hne in Hf. by apply elem_of_nil in Hf.
Qed.

Lemma winsorize_df_clips_witness :
  wf twenty ∧ NoDup (columns twenty) ∧
  (nrows twenty ≠ 0 ∨ numeric_columns twenty = []) ∧
  ∃ df', winsorize_df twenty = Some df' ∧
    index df' = index twenty ∧
    nrows df' = nrows twenty ∧
    data df' = prod_map id winsorized_column <$> data twenty ∧
    ∀ c v idx, (c, NumCol v) ∈ data twenty → sorts idx v →
      winsorize1D idx v = Some (clip (low_cut v) (high_cut v) <$> v).
Proof.
  assert (wf twenty) as Hwf by (repeat constructor).
  assert (NoDup (columns twenty)) as Hnd.
  { unfold columns. simpl. apply NoDup_cons.
    split; [by intros ?%list_elem_of_singleton|apply NoDup_singleton]. }
  assert (nrows twenty ≠ 0 ∨ numeric_columns twenty = []) as Hne
    by (left; vm_compute; lia).
  split; [done|]. split; [done|]. split; [done|].
  by apply (winsorize_df_clips twenty).
Defined.

(** C5. Winsorizing at the limits 5%/5% is idempotent: winsorizing the
    winsorized column returns it unchanged (on the empty column both sides
    raise). *)
Theorem winsorize_idempotent a : winsorize a ≫= winsorize = winsorize a.
Proof.
  destruct (decide (a = [])) as [->|Hne]; [done|].
  rewrite winsorize_clip by done. simpl.
  pose proof (low_high_cut a Hne) as Hlh.
  rewrite winsorize_clip by (by destruct a).
  rewrite low_cut_fmap, high_cut_fmap by auto using clip_mono.
  rewrite (clip_le _ _ (low_cut a)) by done.
  rewrite (clip_ge _ _ (high_cut a)) by done.
  f_equal. rewrite <-list_fmap_compose. apply list_fmap_ext.
  intros _ x _. simpl. by apply clip_idemp.
Qed.

(** C6, as stated, at [six]: the first pass drops one row and the second
    pass, with the quartiles computed again, drops two. *)
Lemma second_pass_removes_more :
  iqr_remove six = Some six_pass1 ∧
  iqr_remove six_pass1 = Some six_pass2 ∧
  ¬ (nrows six_pass1 - nrows six_pass2 ≤ nrows six - nrows six_pass1).
Proof.
  split; [|split].
  - vm_compute. reflexivity.
  - vm_compute. reflexivity.
  - vm_compute. lia.
Qed.

(** C6, amended.  After a first pass of the IQR filter a second pass
    returns as well and only drops rows of the first pass's output, so the
    row count does not grow from pass to pass; the second pass may drop no
    row at all (as on [five]), and the number it drops is not bounded by the
    number the first pass dropped. *)
Theorem iqr_remove_twice :
  (∀ df df1, iqr_remove df = Some df1 →
     ∃ df2, iqr_remove df1 = Some df2 ∧
       rows df2 `sublist_of` rows df1 ∧
       nrows df2 ≤ nrows df1 ∧ nrows df1 ≤ nrows df) ∧
  (iqr_remove five = Some five_pass1 ∧
   iqr_remove five_pass1 = Some five_pass1 ∧
   nrows five_pass1 < nrows five).
Proof.
  split.
  - intros df df1 H. pose proof (iqr_remove_Some _ _ H) as Hnum.
    destruct (iqr_remove_loc_mask _ _ H) as [mask ->].
    rewrite (iqr_remove_numeric (loc_mask mask df))
      by by apply all_numeric_loc_mask.
    eexists. split; [done|]. rewrite rows_loc_mask.
    split; [apply take_mask_sublist|].
    split; apply nrows_loc_mask.
  - split; [|split].
    + vm_compute. reflexivity.
    + vm_compute. reflexivity.
    + vm_compute. lia.
Qed.

Lemma iqr_remove_twice_witness :
  iqr_remove six = Some six_pass1 ∧
  ∃ df2, iqr_remove six_pass1 = Some df2 ∧
    rows df2 `sublist_of` rows six_pass1 ∧
    nrows df2 ≤ nrows six_pass1 ∧ nrows six_pass1 ≤ nrows six.
Proof.
  assert (iqr_remove six = Some six_pass1) as Hrun by (vm_compute; reflexivity).
  split; [done|].
  by apply (proj1 iqr_remove_twice six six_pass1).
Defined.

(** C7. Each operation on the Working Table (missing-value drop, winsorize,
    IQR filter) that returns a table returns one with the column labels of
    its input. *)
Theorem operations_preserve_columns op df df' :
  apply_operation op df = Some df' → columns df' = columns df.
Proof.
  destruct op as [C| |]; simpl.
  - destruct C as [|c C]; [by intros [= ->]|].
    intros [mask ->]%dropna_Some. apply columns_loc_mask.
  - apply columns_winsorize_loop.
  - intros [mask ->]%iqr_remove_loc_mask. apply columns_loc_mask.
Qed.

Lemma operations_preserve_columns_witness :
  apply_operation RemoveOutliers six = Some six_pass1 ∧
  columns six_pass1 = columns six.
Proof.
  assert (apply_operation RemoveOutliers six = Some six_pass1) as Hrun
    by (vm_compute; reflexivity).
  split; [done|].
  by apply (operations_preserve_columns RemoveOutliers six six_pass1).
Defined.

(** C8, as stated, at a session that already holds [people]: after a new
    upload that parses to [six] the Working Table is still [people]. *)
Lemma new_upload_keeps_old_table :
  init_session six (init_session people ∅) !! "cleaned_df" = Some people ∧
  init_session six (init_session people ∅) !! "cleaned_df" ≠ Some six.
Proof.
  split; [reflexivity|]. intros H. vm_compute in H. discriminate H.
Qed.

(** C8, amended.  A run with an uploaded file sets the Working Table to a
    copy of the uploaded table only when the session holds none; a session
    that already holds a Working Table keeps it, also when the uploaded
    file is a new one. *)
Theorem init_session_keeps_table df ss :
  init_session df ss !! "cleaned_df" = Some (default df (ss !! "cleaned_df")) ∧
  ∀ df0, init_session df (init_session df0 ss) = init_session df0 ss.
Proof.
  split; [apply init_session_lookup|].
  intros df0. unfold init_session at 1.
  by rewrite init_session_lookup.
Qed.




(** C10. The missing-value drop and the IQR filter return the rows of their
    input in the input's order: the row sequence of the result is a
    subsequence of the row sequence of the input. *)
Theorem row_removal_subsequence op df df' :
  op ≠ Winsorize → apply_operation op df = Some df' →
  rows df' `sublist_of` rows df.
Proof.
  intros Hop. destruct op as [C| |]; simpl; [|done|].
  - destruct C as [|c C]; [by intros [= ->]|].
    intros [mask ->]%dropna_Some. rewrite rows_loc_mask.
    apply take_mask_sublist.
  - intros [mask ->]%iqr_remove_loc_mask. rewrite rows_loc_mask.
    apply take_mask_sublist.
Qed.

Lemma row_removal_subsequence_witness :
  DropMissing ["age"] ≠ Winsorize ∧
  apply_operation (DropMissing ["age"]) people
    = Some (mkDataFrame [0; 2; 3]
              [("name", ObjCol [Some "ann"; None; Some "dan"]);
               ("age", NumCol [num 31; num 45; num 27])]) ∧
  rows (mkDataFrame [0; 2; 3]
          [("name", ObjCol [Some "ann"; None; Some "dan"]);
           ("age", NumCol [num 31; num 45; num 27])])
  `sublist_of` rows people.
Proof.
  assert (DropMissing ["age"] ≠ Winsorize) as Hop by done.
  assert (apply_operation (DropMissing ["age"]) people
    = Some (mkDataFrame [0; 2; 3]
              [("name", ObjCol [Some "ann"; None; Some "dan"]);
               ("age", NumCol [num 31; num 45; num 27])])) as Hrun
    by (vm_compute; reflexivity).
  split; [done|]. split; [done|].
  by apply (row_removal_subsequence (DropMissing ["age"]) people).
Defined.

(** ** The export path *)

(** Line 156 puts a relative file name under [exports]; an absolute one
    replaces the directory. *)
Lemma cleaned_df_path_relative f :
  starts_with_sep f = false → cleaned_df_path f = "exports/" +:+ f.
Proof. intros H. unfold cleaned_df_path, path_join. by rewrite H. Qed.

Lemma cleaned_df_path_absolute f :
  starts_with_sep f = true → cleaned_df_path f = f.
Proof. intros H. unfold cleaned_df_path, path_join. by rewrite H. Qed.

Example cleaned_df_path_out : cleaned_df_path "out.csv" = "exports/out.csv".
Proof. reflexivity. Qed.

(** * Further properties of the pipeline *)

(** ** Masks, slices and well-formed tables *)

Lemma take_mask_length_eq {A B} m (l : list A) (k : list B) :
  length l = length k → length (take_mask m l) = length (take_mask m k).
Proof.
  revert l k. induction m as [|b m IH]; intros [|x l] [|y k] Hlen;
    simpl in *; try done.
  destruct b; simpl; [f_equal|]; apply IH; lia.
Qed.

Lemma take_mask_replicate_true {A} n (l : list A) :
  take_mask (replicate n true) l = take n l.
Proof.
  revert l. induction n as [|n IH]; intros [|x l]; simpl; try done.
  by rewrite IH.
Qed.

Lemma take_mask_drop {A} k (l : list A) :
  take_mask (replicate k false ++ replicate (length l - k) true) l = drop k l.
Proof.
  revert l. induction k as [|k IH]; intros l.
  - simpl. rewrite Nat.sub_0_r, take_mask_replicate_true. by rewrite firstn_all.
  - destruct l as [|x l]; simpl; [done|]. apply IH.
Qed.

Lemma col_len_col_mask {A} m c (idx : list A) :
  col_len c = length idx →
  col_len (col_mask m c) = length (take_mask m idx).
Proof.
  unfold col_len. rewrite cells_col_mask. apply take_mask_length_eq.
Qed.

Lemma wf_loc_mask m df : wf df → wf (loc_mask m df).
Proof.
  unfold wf, loc_mask, nrows. simpl. rewrite Forall_fmap.
  intros H. eapply Forall_impl; [exact H|]. intros [c col] Hc. simpl in *.
  by apply col_len_col_mask.
Qed.

Lemma col_len_NumCol v : col_len (NumCol v) = length v.
Proof. unfold col_len. simpl. by rewrite length_fmap. Qed.

Lemma col_len_ObjCol v : col_len (ObjCol v) = length v.
Proof. unfold col_len. simpl. by rewrite length_fmap. Qed.

Lemma loc_mask_all_true df :
  wf df → loc_mask (replicate (nrows df) true) df = df.
Proof.
  intros Hwf. destruct df as [idx d]. unfold loc_mask, wf, nrows in *.
  simpl in *. f_equal.
  - rewrite take_mask_replicate_true. by rewrite firstn_all.
  - induction Hwf as [|[c col] d Hc _ IH]; [done|].
    rewrite fmap_cons, IH. f_equal. simpl in *. f_equal.
    destruct col as [v|v]; simpl; rewrite take_mask_replicate_true;
      f_equal; apply take_ge.
    + rewrite col_len_NumCol in Hc. lia.
    + rewrite col_len_ObjCol in Hc. lia.
Qed.

Lemma index_rows df : (rows df).*1 = index df.
Proof.
  unfold rows. generalize (prod_map id cells <$> data df).
  induction (index df) as [|l idx IH]; intros d; simpl; [done|].
  by rewrite IH.
Qed.

(** Two well-formed tables with the same schema and the same rows are the
    same table. *)
Lemma cells_inj c1 c2 :
  is_numeric c1 = is_numeric c2 → cells c1 = cells c2 → c1 = c2.
Proof.
  destruct c1 as [v1|v1], c2 as [v2|v2]; simpl; try done; intros _ H;
    f_equal; revert v2 H; induction v1 as [|x v1 IH]; intros [|y v2] H;
    simpl in *; try done; injection H as Hx H; f_equal; auto;
    destruct x, y; simpl in *; congruence.
Qed.

Lemma row_at_lookup df i j c col :
  data df !! j = Some (c, col) →
  row_at df i !! j = Some (c, default NA (cells col !! i)).
Proof. intros H. unfold row_at. by rewrite list_lookup_fmap, H. Qed.

Lemma frame_ext df1 df2 :
  wf df1 → wf df2 → schema df1 = schema df2 → rows df1 = rows df2 →
  df1 = df2.
Proof.
  intros Hwf1 Hwf2 Hs Hr.
  assert (index df1 = index df2) as Hidx by by rewrite <-!index_rows, Hr.
  destruct df1 as [idx d1], df2 as [idx2 d2]. simpl in *. subst idx2.
  f_equal. apply list_eq. intros j.
  assert (prod_map id is_numeric <$> d1 !! j = prod_map id is_numeric <$> d2 !! j)
    as Hj by (unfold schema in Hs; simpl in Hs;
              by rewrite <-!list_lookup_fmap, Hs).
  destruct (d1 !! j) as [[c1 col1]|] eqn:H1, (d2 !! j) as [[c2 col2]|] eqn:H2;
    simpl in Hj; try done.
  injection Hj as -> Hnum. do 2 f_equal. apply cells_inj; [done|].
  assert (col_len col1 = length idx) as Hl1.
  { unfold wf in Hwf1. rewrite Forall_forall in Hwf1.
    apply (Hwf1 (c2, col1)). by eapply list_elem_of_lookup_2. }
  assert (col_len col2 = length idx) as Hl2.
  { unfold wf in Hwf2. rewrite Forall_forall in Hwf2.
    apply (Hwf2 (c2, col2)). by eapply list_elem_of_lookup_2. }
  apply list_eq. intros i. destruct (decide (i < length idx)) as [Hi|Hi].
  - destruct (lookup_lt_is_Some_2 idx i Hi) as [l Hl].
    assert (rows (mkDataFrame idx d1) !! i = rows (mkDataFrame idx d2) !! i)
      as Hri by by rewrite Hr.
    rewrite !rows_lookup in Hri. simpl in Hri. rewrite Hl in Hri. simpl in Hri.
    injection Hri as Hri.
    assert (row_at (mkDataFrame idx d1) i !! j = row_at (mkDataFrame idx d2) i !! j)
      as Hc by by rewrite Hri.
    rewrite (row_at_lookup _ i j c2 col1), (row_at_lookup _ i j c2 col2) in Hc
      by done.
    destruct (lookup_lt_is_Some_2 (cells col1) i) as [x1 Hx1];
      [unfold col_len in Hl1; lia|].
    destruct (lookup_lt_is_Some_2 (cells col2) i) as [x2 Hx2];
      [unfold col_len in Hl2; lia|].
    rewrite Hx1, Hx2 in *. simpl in Hc. congruence.
  - rewrite !lookup_ge_None_2; [done|unfold col_len in *; lia..].
Qed.

Lemma schema_loc_mask m df : schema (loc_mask m df) = schema df.
Proof.
  unfold schema, loc_mask. simpl. rewrite <-list_fmap_compose.
  apply list_fmap_ext. by intros _ [c [v|v]] _.
Qed.

(** ** The missing-value drop on repeated runs *)

Lemma dropna_rows C df df' :
  wf df → dropna C df = Some df' →
  rows df' = filter (non_null_in C) (rows df) ∧ wf df'
  ∧ schema df' = schema df ∧ columns df' = columns df.
Proof.
  intros Hwf H. unfold dropna in H. case_decide; [|done].
  injection H as <-.
  rewrite rows_loc_mask, dropna_mask_rows, take_mask_filter by done.
  auto using wf_loc_mask, schema_loc_mask, columns_loc_mask.
Qed.

Lemma dropna_is_Some C df : is_Some (dropna C df) ↔ C ⊆ columns df.
Proof.
  unfold dropna. case_decide; split; try done; eauto.
Qed.

Lemma non_null_in_app C1 C2 r :
  non_null_in (C1 ++ C2) r ↔ non_null_in C1 r ∧ non_null_in C2 r.
Proof.
  unfold non_null_in. rewrite !Forall_forall. setoid_rewrite elem_of_app.
  split; [intros H; split; intros p Hp Hc; apply (H p Hp); auto|].
  intros [H1 H2] p Hp [Hc|Hc]; [by apply H1|by apply H2].
Qed.

Lemma fmap_bool_decide_true {A} (P : A → Prop) `{!∀ x, Decision (P x)} l :
  Forall P l → (λ x, bool_decide (P x)) <$> l = replicate (length l) true.
Proof.
  induction 1 as [|x l Hx _ IH]; [done|].
  rewrite fmap_cons, IH, bool_decide_true by done. done.
Qed.

Lemma dropna_idempotent_aux C df df' :
  wf df → dropna C df = Some df' → dropna C df' = Some df'.
Proof.
  intros Hwf H. destruct (dropna_rows C df df' Hwf H) as (Hr & Hwf' & _ & Hc).
  assert (C ⊆ columns df) as Hsub by (apply dropna_is_Some; eauto).
  unfold dropna. rewrite Hc, decide_True by done. f_equal.
  rewrite dropna_mask_rows by done.
  rewrite fmap_bool_decide_true.
  - rewrite rows_length. by apply loc_mask_all_true.
  - rewrite Hr. apply Forall_forall. by intros r [? _]%list_elem_of_filter.
Qed.

(** X1. Dropping the rows with missing values is idempotent: on the table
    it returned, the drop with the same selection returns that table again
    (every run with the checkbox ticked applies line 79 to the table in the
    session). *)
Theorem dropna_idempotent C df df' :
  wf df → dropna C df = Some df' → dropna C df' = Some df'.
Proof. apply dropna_idempotent_aux. Qed.

Lemma dropna_idempotent_witness :
  wf people ∧
  dropna ["age"] people
    = Some (mkDataFrame [0; 2; 3]
              [("name", ObjCol [Some "ann"; None; Some "dan"]);
               ("age", NumCol [num 31; num 45; num 27])]) ∧
  dropna ["age"] (mkDataFrame [0; 2; 3]
              [("name", ObjCol [Some "ann"; None; Some "dan"]);
               ("age", NumCol [num 31; num 45; num 27])])
    = Some (mkDataFrame [0; 2; 3]
              [("name", ObjCol [Some "ann"; None; Some "dan"]);
               ("age", NumCol [num 31; num 45; num 27])]).
Proof.
  assert (wf people) as Hwf by (repeat constructor).
  assert (dropna ["age"] people
    = Some (mkDataFrame [0; 2; 3]
              [("name", ObjCol [Some "ann"; None; Some "dan"]);
               ("age", NumCol [num 31; num 45; num 27])])) as Hrun
    by (vm_compute; reflexivity).
  split; [done|]. split; [done|].
  by apply (dropna_idempotent ["age"] people).
Defined.

(** X2. Drops accumulate: dropping on [C1] and then, on the result, on [C2]
    gives the table that one drop on [C1 ++ C2] gives on the original. *)
Theorem dropna_cumulative C1 C2 df df1 df2 :
  wf df → dropna C1 df = Some df1 → dropna C2 df1 = Some df2 →
  dropna (C1 ++ C2) df = Some df2.
Proof.
  intros Hwf H1 H2.
  destruct (dropna_rows C1 df df1 Hwf H1) as (Hr1 & Hwf1 & Hs1 & Hc1).
  destruct (dropna_rows C2 df1 df2 Hwf1 H2) as (Hr2 & Hwf2 & Hs2 & Hc2).
  assert (is_Some (dropna (C1 ++ C2) df)) as [df12 H12].
  { apply dropna_is_Some. intros c [Hc|Hc]%elem_of_app.
    - revert c Hc. apply dropna_is_Some. eauto.
    - rewrite <-Hc1. revert c Hc. apply dropna_is_Some. eauto. }
  destruct (dropna_rows _ df df12 Hwf H12) as (Hr12 & Hwf12 & Hs12 & Hc12).
  rewrite H12. f_equal. apply frame_ext; [done..|congruence|].
  rewrite Hr12, Hr2, Hr1, list_filter_filter.
  apply list_filter_iff. intros r. rewrite non_null_in_app. tauto.
Qed.

Lemma dropna_cumulative_witness :
  wf people ∧
  dropna ["age"] people
    = Some (mkDataFrame [0; 2; 3]
              [("name", ObjCol [Some "ann"; None; Some "dan"]);
               ("age", NumCol [num 31; num 45; num 27])]) ∧
  dropna ["name"] (mkDataFrame [0; 2; 3]
              [("name", ObjCol [Some "ann"; None; Some "dan"]);
               ("age", NumCol [num 31; num 45; num 27])])
    = Some (mkDataFrame [0; 3]
              [("name", ObjCol [Some "ann"; Some "dan"]);
               ("age", NumCol [num 31; num 27])]) ∧
  dropna (["age"] ++ ["name"]) people
    = Some (mkDataFrame [0; 3]
              [("name", ObjCol [Some "ann"; Some "dan"]);
               ("age", NumCol [num 31; num 27])]).
Proof.
  assert (wf people) as Hwf by (repeat constructor).
  assert (dropna ["age"] people
    = Some (mkDataFrame [0; 2; 3]
              [("name", ObjCol [Some "ann"; None; Some "dan"]);
               ("age", NumCol [num 31; num 45; num 27])])) as H1
    by (vm_compute; reflexivity).
  assert (dropna ["name"] (mkDataFrame [0; 2; 3]
              [("name", ObjCol [Some "ann"; None; Some "dan"]);
               ("age", NumCol [num 31; num 45; num 27])])
    = Some (mkDataFrame [0; 3]
              [("name", ObjCol [Some "ann"; Some "dan"]);
               ("age", NumCol [num 31; num 27])])) as H2
    by (vm_compute; reflexivity).
  split; [done|]. split; [done|]. split; [done|].
  by apply (dropna_cumulative ["age"] ["name"] people _ _ Hwf H1 H2).
Defined.

(** ** The check after the drop (lines 84-93) *)

Lemma true_in_isnull col : true ∈ isnull col ↔ NA ∈ cells col.
Proof.
  unfold isnull. rewrite list_elem_of_fmap. split.
  - intros (x & Hx & Hin). symmetry in Hx.
    apply bool_decide_eq_true in Hx. by subst.
  - intros Hin. exists NA. split; [|done]. by rewrite bool_decide_true.
Qed.

Lemma count_true_zero m : count_true m = 0 ↔ true ∉ m.
Proof.
  unfold count_true. induction m as [|b m IH]; simpl.
  - split; [intros _; apply not_elem_of_nil|done].
  - rewrite filter_cons, not_elem_of_cons. destruct b.
    + rewrite decide_True by done. simpl. split; [done|]. by intros [? _].
    + rewrite decide_False by done. rewrite IH. split; [done|]. by intros [_ ?].
Qed.

(** X3. After the drop on the selection [C], no column of [C] holds a
    missing value: the list of columns that line 92 shows under the warning
    contains no selected column. *)
Theorem dropna_clears_selected C df df' :
  wf df → dropna C df = Some df' →
  ∀ c, c ∈ C → c ∉ columns_with_missing df'.
Proof.
  intros Hwf H c HC Hin.
  destruct (dropna_rows C df df' Hwf H) as (Hr & Hwf' & _ & _).
  unfold columns_with_missing in Hin.
  apply list_elem_of_fmap in Hin as ([c' col] & -> & Hin). simpl in HC.
  apply list_elem_of_filter in Hin as [Hnull Hin]. simpl in Hnull.
  apply true_in_isnull, list_elem_of_lookup_1 in Hnull as [i Hi].
  apply list_elem_of_lookup_1 in Hin as [j Hj].
  assert (i < nrows df') as Hlt.
  { unfold wf in Hwf'. rewrite Forall_forall in Hwf'.
    rewrite <-(Hwf' (c', col)) by by eapply list_elem_of_lookup_2.
    by eapply lookup_lt_Some. }
  destruct (lookup_lt_is_Some_2 (index df') i Hlt) as [l Hl].
  assert ((l, row_at df' i) ∈ rows df') as Hrow.
  { eapply list_elem_of_lookup_2. by rewrite rows_lookup, Hl. }
  rewrite Hr in Hrow. apply list_elem_of_filter in Hrow as [Hnn _].
  unfold non_null_in in Hnn. rewrite Forall_forall in Hnn.
  apply (Hnn (c', NA)); [|done..].
  apply (list_elem_of_lookup_2 _ j). simpl.
  rewrite (row_at_lookup df' i j c' col Hj). by rewrite Hi.
Qed.

Lemma dropna_clears_selected_witness :
  wf people ∧
  dropna ["age"] people
    = Some (mkDataFrame [0; 2; 3]
              [("name", ObjCol [Some "ann"; None; Some "dan"]);
               ("age", NumCol [num 31; num 45; num 27])]) ∧
  ∀ c, c ∈ ["age"] →
    c ∉ columns_with_missing (mkDataFrame [0; 2; 3]
              [("name", ObjCol [Some "ann"; None; Some "dan"]);
               ("age", NumCol [num 31; num 45; num 27])]).
Proof.
  assert (wf people) as Hwf by (repeat constructor).
  assert (dropna ["age"] people
    = Some (mkDataFrame [0; 2; 3]
              [("name", ObjCol [Some "ann"; None; Some "dan"]);
               ("age", NumCol [num 31; num 45; num 27])])) as Hrun
    by (vm_compute; reflexivity).
  split; [done|]. split; [done|].
  by apply (dropna_clears_selected ["age"] people).
Defined.

(** X4. The two branches of line 85 agree with line 92: the total number of
    missing values is zero exactly when no column is listed as having
    missing values, so the warning never comes with an empty list. *)
Theorem null_sum_zero_iff df :
  null_sum_after_drop df = 0 ↔ columns_with_missing df = [].
Proof.
  unfold null_sum_after_drop, columns_with_missing, missing_values.
  induction (data df) as [|[c col] d IH]; [done|].
  rewrite !fmap_cons. simpl. rewrite filter_cons. simpl.
  destruct (decide (true ∈ isnull col)) as [Hin|Hin].
  - split; [|done]. intros Hsum.
    assert (count_true (isnull col) = 0) as Hz by lia.
    by apply count_true_zero in Hz.
  - apply count_true_zero in Hin. rewrite Hin. simpl. apply IH.
Qed.

(** X5. The two counts of the overview add up: for every column, the number
    of non-null cells (line 25) plus the number of missing cells (line 70)
    is the number of rows. *)
Theorem counts_add_up df :
  wf df →
  Forall2 (λ a b, a.1 = b.1 ∧ a.2 + b.2 = nrows df)
    (non_null_counts df) (missing_values df).
Proof.
  unfold wf, non_null_counts, missing_values. intros Hwf.
  induction Hwf as [|[c col] d Hc _ IH]; [constructor|].
  rewrite !fmap_cons. constructor; [|done]. simpl. split; [done|].
  rewrite <-Hc. unfold col_len, notna, isnull, count_true. simpl.
  induction (cells col) as [|x l IHl]; [done|].
  rewrite !fmap_cons, !filter_cons.
  destruct (decide (x = NA)) as [->|Hx].
  - rewrite bool_decide_false, bool_decide_true by auto.
    rewrite decide_False, decide_True by done. simpl in *. lia.
  - rewrite bool_decide_true, bool_decide_false by auto.
    rewrite decide_True, decide_False by done. simpl in *. lia.
Qed.

Lemma counts_add_up_witness :
  wf people ∧
  Forall2 (λ a b, a.1 = b.1 ∧ a.2 + b.2 = nrows people)
    (non_null_counts people) (missing_values people).
Proof.
  assert (wf people) as Hwf by (repeat constructor).
  split; [done|]. by apply (counts_add_up people).
Defined.

(** ** The previews (lines 45-48) *)

Lemma head_df_loc_mask n df : head_df n df = loc_mask (replicate n true) df.
Proof.
  unfold head_df, loc_mask. rewrite take_mask_replicate_true. f_equal.
  apply list_fmap_ext. intros _ [c [v|v]] _; simpl;
    by rewrite take_mask_replicate_true.
Qed.

Lemma tail_df_loc_mask n df :
  wf df →
  tail_df n df
  = loc_mask (replicate (nrows df - n) false
              ++ replicate (nrows df - (nrows df - n)) true) df.
Proof.
  intros Hwf. unfold tail_df, loc_mask. f_equal.
  - unfold nrows. by rewrite take_mask_drop.
  - apply Forall_fmap_ext_1. unfold wf in Hwf.
    eapply Forall_impl; [exact Hwf|]. intros [c [v|v]] Hc; simpl in *.
    + rewrite col_len_NumCol in Hc. rewrite <-Hc. by rewrite take_mask_drop.
    + rewrite col_len_ObjCol in Hc. rewrite <-Hc. by rewrite take_mask_drop.
Qed.

(** X6. The head preview shows the first [h] rows and the tail preview the
    last [t] rows of the Working Table; when the table has at most [h + t]
    rows every row is in one of the two previews. *)
Theorem preview_rows h t df :
  wf df →
  rows (head_df h df) = take h (rows df) ∧
  rows (tail_df t df) = drop (nrows df - t) (rows df) ∧
  (nrows df ≤ h + t →
   ∀ r, r ∈ rows df → r ∈ rows (head_df h df) ∨ r ∈ rows (tail_df t df)).
Proof.
  intros Hwf.
  assert (rows (head_df h df) = take h (rows df)) as Hh.
  { by rewrite head_df_loc_mask, rows_loc_mask, take_mask_replicate_true. }
  assert (rows (tail_df t df) = drop (nrows df - t) (rows df)) as Ht.
  { rewrite tail_df_loc_mask, rows_loc_mask by done.
    rewrite <-(rows_length df). apply take_mask_drop. }
  split; [done|]. split; [done|].
  intros Hn r [i Hi]%list_elem_of_lookup_1. rewrite Hh, Ht.
  destruct (decide (i < h)) as [Hlt|Hge].
  - left. apply elem_of_take. eauto.
  - right. apply list_elem_of_lookup. exists (i - (nrows df - t)).
    rewrite lookup_drop.
    pose proof (lookup_lt_Some _ _ _ Hi) as Hlen. rewrite rows_length in Hlen.
    by replace (nrows df - t + (i - (nrows df - t))) with i by lia.
Qed.

Lemma preview_rows_witness :
  wf people ∧
  rows (head_df 3 people) = take 3 (rows people) ∧
  rows (tail_df 2 people) = drop (nrows people - 2) (rows people) ∧
  (nrows people ≤ 3 + 2 →
   ∀ r, r ∈ rows people →
        r ∈ rows (head_df 3 people) ∨ r ∈ rows (tail_df 2 people)).
Proof.
  assert (wf people) as Hwf by (repeat constructor).
  split; [done|]. by apply (preview_rows 3 2 people).
Defined.

(** ** Columns and dtypes under the operations (lines 109, 121, 140) *)

Lemma numeric_columns_schema df :
  numeric_columns df = (filter (λ p, p.2 = true) (schema df)).*1.
Proof.
  unfold numeric_columns, schema.
  induction (data df) as [|[c col] d IH]; [done|].
  rewrite fmap_cons, !filter_cons. simpl.
  destruct (decide (is_numeric col = true)); by rewrite ?fmap_cons, IH.
Qed.

Lemma schema_winsorize_df df df' :
  NoDup (columns df) → winsorize_df df = Some df' → schema df' = schema df.
Proof.
  intros Hnd. rewrite winsorize_df_mapM by done. unfold schema.
  destruct (mapM _ (data df)) as [d'|] eqn:Hm; simpl; [|done].
  intros [= <-]. simpl. apply mapM_Some in Hm.
  induction Hm as [|[c col] [c' col'] d d' Hp _ IH]; [done|].
  rewrite !fmap_cons, IH. f_equal. simpl in Hp.
  destruct col as [v|v].
  - destruct (winsorize v) as [v'|]; simpl in Hp; [|done]. by injection Hp as <- <-.
  - by injection Hp as <- <-.
Qed.

(** X7. Each operation on the Working Table keeps the labels together with
    the dtypes of the columns, so the numeric columns that the box plots
    iterate over are the same before and after cleaning. *)
Theorem operations_preserve_schema op df df' :
  NoDup (columns df) → apply_operation op df = Some df' →
  schema df' = schema df ∧ numeric_columns df' = numeric_columns df.
Proof.
  intros Hnd H. assert (schema df' = schema df) as Hs.
  { destruct op as [C| |]; simpl in H.
    - destruct C as [|c C]; [by injection H as <-|].
      apply dropna_Some in H as [mask ->]. apply schema_loc_mask.
    - by apply schema_winsorize_df.
    - apply iqr_remove_loc_mask in H as [mask ->]. apply schema_loc_mask. }
  split; [done|]. by rewrite !numeric_columns_schema, Hs.
Qed.

Lemma operations_preserve_schema_witness :
  NoDup (columns twenty) ∧
  apply_operation Winsorize twenty
    = Some (mkDataFrame (index twenty)
              (prod_map id winsorized_column <$> data twenty)) ∧
  schema (mkDataFrame (index twenty)
            (prod_map id winsorized_column <$> data twenty)) = schema twenty ∧
  numeric_columns (mkDataFrame (index twenty)
            (prod_map id winsorized_column <$> data twenty))
  = numeric_columns twenty.
Proof.
  assert (NoDup (columns twenty)) as Hnd.
  { unfold columns. simpl. apply NoDup_cons.
    split; [by intros ?%list_elem_of_singleton|apply NoDup_singleton]. }
  assert (apply_operation Winsorize twenty
    = Some (mkDataFrame (index twenty)
              (prod_map id winsorized_column <$> data twenty))) as Hrun.
  { simpl. apply winsorize_df_total; [repeat constructor|done|].
    left. vm_compute. lia. }
  split; [done|]. split; [done|].
  by apply (operations_preserve_schema Winsorize twenty).
Defined.

(** ** More on winsorizing one column (lines 121-122) *)

Lemma elem_of_kth a x : x ∈ a → ∃ j, j < length a ∧ kth_smallest j a = x.
Proof.
  intros Hx. rewrite <-(merge_sort_Permutation nan_le a) in Hx.
  apply list_elem_of_lookup_1 in Hx as [j Hj]. exists j. split.
  - apply lookup_lt_Some in Hj. by rewrite merge_sort_Permutation in Hj.
  - unfold kth_smallest. by rewrite Hj.
Qed.

Lemma kth_elem_of a j : j < length a → kth_smallest j a ∈ a.
Proof.
  intros Hj. unfold kth_smallest.
  destruct (lookup_lt_is_Some_2 (merge_sort nan_le a) j) as [x Hx].
  { by rewrite merge_sort_Permutation. }
  rewrite Hx. simpl. rewrite <-(merge_sort_Permutation nan_le a).
  by eapply list_elem_of_lookup_2.
Qed.

Lemma nonempty_length {A} (a : list A) : a ≠ [] → 0 < length a.
Proof. destruct a; simpl; [done|lia]. Qed.

Lemma low_cut_elem_of a : a ≠ [] → low_cut a ∈ a.
Proof.
  intros Hne%nonempty_length. pose proof (cut_le (length a)).
  apply kth_elem_of. lia.
Qed.

Lemma high_cut_elem_of a : a ≠ [] → high_cut a ∈ a.
Proof. intros Hne%nonempty_length. apply kth_elem_of. lia. Qed.

Lemma clip_cases lo hi x :
  clip lo hi x = lo ∨ clip lo hi x = hi ∨ clip lo hi x = x.
Proof. unfold clip. repeat case_decide; auto. Qed.

Lemma clip_bounds lo hi x :
  nan_le lo hi → nan_le lo (clip lo hi x) ∧ nan_le (clip lo hi x) hi.
Proof.
  intros Hlh. destruct (nan_le_total x lo) as [Hx|Hx].
  - rewrite clip_le by done. done.
  - destruct (nan_le_total x hi) as [Hx'|Hx'].
    + by rewrite clip_between.
    + rewrite clip_ge by done. done.
Qed.

Lemma winsorize_Some_clip a b :
  winsorize a = Some b →
  a ≠ [] ∧ b = clip (low_cut a) (high_cut a) <$> a.
Proof.
  intros H. destruct (decide (a = [])) as [->|Hne].
  - by rewrite winsorize_nil in H.
  - rewrite winsorize_clip in H by done. by injection H as <-.
Qed.

(** X8. A column with fewer than twenty cells is returned unchanged:
    [int(0.05 * n)] is zero, so no cell is cut on either side. *)
Theorem winsorize_small a :
  0 < length a → length a < 20 → winsorize a = Some a.
Proof.
  intros Hpos Hlt. assert (a ≠ []) as Hne by (intros ->; simpl in *; lia).
  rewrite winsorize_clip by done. f_equal.
  rewrite <-(list_fmap_id a) at 4. apply list_fmap_ext.
  intros i x Hi. simpl.
  destruct (elem_of_kth a x) as (j & Hj & <-);
    [by eapply list_elem_of_lookup_2|].
  unfold low_cut, high_cut, cut. rewrite Nat.div_small by done.
  apply clip_between; apply kth_smallest_le; lia.
Qed.

Lemma winsorize_small_witness :
  0 < length ten_values ∧ length ten_values < 20 ∧
  winsorize ten_values = Some ten_values.
Proof.
  assert (0 < length ten_values) as H1 by (vm_compute; lia).
  assert (length ten_values < 20) as H2 by (vm_compute; lia).
  split; [done|]. split; [done|].
  by apply (winsorize_small ten_values).
Defined.

(** X9. Winsorizing invents no value: every cell of the result is a cell of
    the input column, and it lies between the two cut cells of the input. *)
Theorem winsorize_values a b :
  winsorize a = Some b →
  Forall (λ y, y ∈ a ∧ nan_le (low_cut a) y ∧ nan_le y (high_cut a)) b.
Proof.
  intros [Hne ->]%winsorize_Some_clip. rewrite Forall_fmap.
  apply Forall_forall. intros x Hx. simpl.
  pose proof (low_high_cut a Hne) as Hlh.
  split; [|by apply clip_bounds].
  destruct (clip_cases (low_cut a) (high_cut a) x) as [->|[->| ->]];
    auto using low_cut_elem_of, high_cut_elem_of.
Qed.

Lemma winsorize_twenty : winsorize twenty_values = Some twenty_winsorized.
Proof. vm_compute. reflexivity. Qed.

Lemma winsorize_values_witness :
  winsorize twenty_values = Some twenty_winsorized ∧
  Forall (λ y, y ∈ twenty_values ∧ nan_le (low_cut twenty_values) y
               ∧ nan_le y (high_cut twenty_values)) twenty_winsorized.
Proof.
  split; [exact winsorize_twenty|].
  exact (winsorize_values twenty_values twenty_winsorized winsorize_twenty).
Defined.

(** X10. Winsorizing keeps the order of the cells: where one cell of the
    input is at most another, so are the cells of the result at the same
    two positions. *)
Theorem winsorize_monotone a b i j x y x' y' :
  winsorize a = Some b →
  a !! i = Some x → a !! j = Some y → b !! i = Some x' → b !! j = Some y' →
  nan_le x y → nan_le x' y'.
Proof.
  intros [Hne ->]%winsorize_Some_clip Hi Hj Hi' Hj' Hxy.
  rewrite list_lookup_fmap, Hi in Hi'. rewrite list_lookup_fmap, Hj in Hj'.
  simpl in *. injection Hi' as <-. injection Hj' as <-.
  apply clip_mono; [by apply low_high_cut|done].
Qed.

Lemma winsorize_monotone_witness :
  winsorize twenty_values = Some twenty_winsorized ∧
  twenty_values !! 3 = Some (num 1) ∧ twenty_values !! 4 = Some (num 2) ∧
  twenty_winsorized !! 3 = Some (num 2) ∧ twenty_winsorized !! 4 = Some (num 2) ∧
  nan_le (num 1) (num 2) ∧ nan_le (num 2) (num 2).
Proof.
  assert (nan_le (num 1) (num 2)) as Hle by (vm_compute; discriminate).
  split; [exact winsorize_twenty|]. repeat (split; [done|]).
  exact (winsorize_monotone twenty_values twenty_winsorized 3 4 _ _ _ _
           winsorize_twenty eq_refl eq_refl eq_refl eq_refl Hle).
Defined.

(** X11. Winsorizing changes at most [2 * int(0.05 * n)] cells of a column
    of [n] cells, that is at most a tenth of the column. *)
Theorem winsorize_changes_few a b :
  winsorize a = Some b →
  length (differing a b) ≤ 2 * cut (length a) ∧
  10 * length (differing a b) ≤ length a.
Proof.
  intros [Hne ->]%winsorize_Some_clip.
  pose proof (argsort_sorts a) as Hs.
  pose proof (sorts_NoDup _ _ Hs) as Hnd.
  pose proof (sorts_length _ _ Hs) as Hlen.
  pose proof (cut_le (length a)) as Hk.
  pose proof (nonempty_length a Hne) as Hpos.
  pose proof (low_high_cut a Hne) as Hlh.
  set (k := cut (length a)) in *. set (idx := argsort a) in *.
  assert (length (differing a (clip (low_cut a) (high_cut a) <$> a)) ≤ 2 * k);
    [|lia].
  trans (length (take k idx ++ drop (length a - k) idx)).
  - apply submseteq_length, NoDup_submseteq.
    { unfold differing. apply NoDup_filter, NoDup_seq. }
    intros i [Hdiff Hi]%list_elem_of_filter.
    apply elem_of_seq in Hi as [_ Hi]. simpl in Hi.
    destruct (sorts_position idx a i Hs Hi) as [j Hj].
    pose proof (lookup_lt_Some _ _ _ Hj) as Hjn.
    rewrite list_lookup_fmap, (sorts_kth _ _ _ _ Hs Hj) in Hdiff.
    simpl in Hdiff. apply elem_of_app.
    destruct (decide (j < k)) as [Hjk|Hjk].
    { left. by apply (NoDup_elem_of_take idx k j). }
    destruct (decide (length a - k ≤ j)) as [Hju|Hju].
    { right. by apply (NoDup_elem_of_drop idx _ j). }
    exfalso. apply Hdiff. f_equal. symmetry.
    unfold low_cut, high_cut. fold k.
    apply clip_between; apply kth_smallest_le; lia.
  - rewrite length_app, length_take, length_drop. lia.
Qed.

Lemma winsorize_changes_few_witness :
  winsorize twenty_values = Some twenty_winsorized ∧
  length (differing twenty_values twenty_winsorized)
    ≤ 2 * cut (length twenty_values) ∧
  10 * length (differing twenty_values twenty_winsorized)
    ≤ length twenty_values.
Proof.
  split; [exact winsorize_twenty|].
  exact (winsorize_changes_few twenty_values twenty_winsorized winsorize_twenty).
Defined.

(** ** Winsorizing a table twice *)

Lemma clip_cuts_fixed a :
  a ≠ [] →
  clip (low_cut (clip (low_cut a) (high_cut a) <$> a))
       (high_cut (clip (low_cut a) (high_cut a) <$> a))
    <$> (clip (low_cut a) (high_cut a) <$> a)
  = clip (low_cut a) (high_cut a) <$> a.
Proof.
  intros Hne. pose proof (low_high_cut a Hne) as Hlh.
  rewrite low_cut_fmap, high_cut_fmap by auto using clip_mono.
  rewrite (clip_le _ _ (low_cut a)) by done.
  rewrite (clip_ge _ _ (high_cut a)) by done.
  rewrite <-list_fmap_compose. apply list_fmap_ext.
  intros _ x _. simpl. by apply clip_idemp.
Qed.

Lemma winsorized_column_idemp c :
  winsorized_column (winsorized_column c) = winsorized_column c.
Proof.
  destruct c as [v|v]; simpl; [|done]. f_equal.
  destruct (decide (v = [])) as [->|Hne]; [done|]. by apply clip_cuts_fixed.
Qed.

Lemma wf_winsorized idx d :
  wf (mkDataFrame idx d) →
  wf (mkDataFrame idx (prod_map id winsorized_column <$> d)).
Proof.
  unfold wf, nrows. simpl. rewrite Forall_fmap. intros H.
  eapply Forall_impl; [exact H|]. intros [c col] Hc. simpl in *.
  by rewrite winsorized_column_len.
Qed.

Lemma numeric_columns_winsorized idx d :
  numeric_columns (mkDataFrame idx (prod_map id winsorized_column <$> d))
  = numeric_columns (mkDataFrame idx d).
Proof.
  rewrite !numeric_columns_schema. unfold schema. simpl.
  rewrite <-list_fmap_compose. do 2 f_equal.
  apply list_fmap_ext. by intros _ [c [v|v]] _.
Qed.

(** X12. On tables the winsorize loop is idempotent: applied to the table
    it returned, it returns that table again, so a second click on Clean
    Data with "Winsorize" changes nothing. *)
Theorem winsorize_df_idempotent df df' :
  wf df → NoDup (columns df) →
  winsorize_df df = Some df' → winsorize_df df' = Some df'.
Proof.
  intros Hwf Hnd H.
  assert (nrows df ≠ 0 ∨ numeric_columns df = []) as Hne.
  { destruct (decide (nrows df = 0)) as [Hz|]; [|by left].
    destruct (decide (numeric_columns df = [])) as [|Hnum]; [by right|].
    by rewrite winsorize_df_empty in H. }
  rewrite winsorize_df_total in H by done. injection H as <-.
  destruct df as [idx d]. simpl in *.
  rewrite winsorize_df_total.
  - simpl. do 2 f_equal. rewrite <-list_fmap_compose.
    apply list_fmap_ext. intros _ [c col] _. simpl.
    by rewrite winsorized_column_idemp.
  - by apply wf_winsorized.
  - unfold columns in *. simpl in *. by rewrite columns_winsorized.
  - by rewrite numeric_columns_winsorized.
Qed.

Lemma winsorize_df_idempotent_witness :
  wf twenty ∧ NoDup (columns twenty) ∧
  winsorize_df twenty
    = Some (mkDataFrame (index twenty)
              (prod_map id winsorized_column <$> data twenty)) ∧
  winsorize_df (mkDataFrame (index twenty)
              (prod_map id winsorized_column <$> data twenty))
    = Some (mkDataFrame (index twenty)
              (prod_map id winsorized_column <$> data twenty)).
Proof.
  assert (wf twenty) as Hwf by (repeat constructor).
  assert (NoDup (columns twenty)) as Hnd.
  { unfold columns. simpl. apply NoDup_cons.
    split; [by intros ?%list_elem_of_singleton|apply NoDup_singleton]. }
  assert (winsorize_df twenty
    = Some (mkDataFrame (index twenty)
              (prod_map id winsorized_column <$> data twenty))) as Hrun.
  { apply winsorize_df_total; [done..|]. left. vm_compute. lia. }
  split; [done|]. split; [done|]. split; [done|].
  by apply (winsorize_df_idempotent twenty).
Defined.

(** ** A drop that has nothing to drop *)

(** X14. A table without missing values in the selected columns is returned
    unchanged by the drop. *)
Theorem dropna_nothing_missing C df :
  wf df → C ⊆ columns df →
  (∀ c, c ∈ C → c ∉ columns_with_missing df) →
  dropna C df = Some df.
Proof.
  intros Hwf Hsub Hnone. unfold dropna. rewrite decide_True by done. f_equal.
  rewrite dropna_mask_rows by done. rewrite fmap_bool_decide_true.
  { rewrite rows_length. by apply loc_mask_all_true. }
  apply Forall_forall. intros [l r] [i Hi]%list_elem_of_lookup_1.
  rewrite rows_lookup in Hi.
  destruct (index df !! i) as [l'|] eqn:Hl; simpl in Hi; [|done].
  injection Hi as <- <-. unfold non_null_in. simpl.
  apply Forall_forall. intros [c x] [j Hj]%list_elem_of_lookup_1 HC Hx.
  simpl in *. subst x. unfold row_at in Hj. rewrite list_lookup_fmap in Hj.
  destruct (data df !! j) as [[c' col]|] eqn:Hd; simpl in Hj; [|done].
  injection Hj as -> Hna.
  apply (Hnone c HC). unfold columns_with_missing.
  apply list_elem_of_fmap. exists (c, col). split; [done|].
  apply list_elem_of_filter. split; [|by eapply list_elem_of_lookup_2].
  simpl. apply true_in_isnull.
  assert (i < col_len col) as Hlt.
  { unfold wf in Hwf. rewrite Forall_forall in Hwf.
    pose proof (Hwf (c, col) (list_elem_of_lookup_2 _ _ _ Hd)) as E.
    simpl in E. rewrite E. by eapply lookup_lt_Some. }
  destruct (lookup_lt_is_Some_2 (cells col) i Hlt) as [x Hx].
  rewrite Hx in Hna. simpl in Hna. subst x. by eapply list_elem_of_lookup_2.
Qed.

Lemma dropna_nothing_missing_witness :
  wf six ∧ ["x"] ⊆ columns six ∧
  (∀ c, c ∈ ["x"] → c ∉ columns_with_missing six) ∧
  dropna ["x"] six = Some six.
Proof.
  assert (wf six) as Hwf by (repeat constructor).
  assert (["x"] ⊆ columns six) as Hsub.
  { intros c Hc%list_elem_of_singleton. subst c. vm_compute. left. }
  assert (∀ c, c ∈ ["x"] → c ∉ columns_with_missing six) as Hnone.
  { intros c _ Hin. vm_compute in Hin. by apply elem_of_nil in Hin. }
  split; [done|]. split; [done|]. split; [done|].
  by apply (dropna_nothing_missing ["x"] six).
Defined.

(** ** Runs of the script *)

Lemma index_winsorize_loop cs df df' :
  winsorize_loop cs df = Some df' → index df' = index df.
Proof.
  revert df. induction cs as [|c cs IH]; intros df; simpl.
  - by intros [= ->].
  - destruct (getitem c (data df)) as [[v|v]|]; [|done..].
    destruct (winsorize v) as [v'|]; simpl; [|done].
    by intros ->%IH.
Qed.

Lemma index_loc_mask m df : index (loc_mask m df) `sublist_of` index df.
Proof. unfold loc_mask. simpl. apply take_mask_sublist. Qed.

Lemma drop_missing_step_keeps b C t t1 :
  drop_missing_step b C t = Some t1 →
  columns t1 = columns t ∧ index t1 `sublist_of` index t.
Proof.
  unfold drop_missing_step. destruct b; [|by intros [= ->]].
  destruct C as [|c C]; [by intros [= ->]|].
  intros [m ->]%dropna_Some. split; [apply columns_loc_mask|apply index_loc_mask].
Qed.

Lemma clean_data_keeps h m t t2 :
  clean_data h m t = Some t2 →
  columns t2 = columns t ∧ index t2 `sublist_of` index t.
Proof.
  unfold clean_data. destruct h; [|by intros [= ->]].
  repeat case_decide.
  - intros Hw. split; [by eapply columns_winsorize_loop|].
    by rewrite (index_winsorize_loop _ _ _ Hw).
  - intros [mask ->]%iqr_remove_loc_mask.
    split; [apply columns_loc_mask|apply index_loc_mask].
  - by intros [= ->].
Qed.

Lemma init_session_held df (ss : session_state) t :
  ss !! "cleaned_df" = Some t → init_session df ss = ss.
Proof. intros H. unfold init_session. by rewrite H. Qed.

Lemma run_keeps w (ss : session_state) df :
  ss !! "cleaned_df" = Some df →
  ∃ df', run w ss !! "cleaned_df" = Some df' ∧
    columns df' = columns df ∧ index df' `sublist_of` index df.
Proof.
  intros Hss. unfold run. destruct (uploaded_file w) as [f|]; [|eauto].
  rewrite (init_session_held f ss df Hss), Hss.
  destruct (drop_missing_step _ _ df) as [t1|] eqn:Hdrop; [|eauto].
  apply drop_missing_step_keeps in Hdrop as [Hc1 Hi1].
  destruct (clean_button w).
  - unfold clean_click. rewrite lookup_insert_eq. simpl.
    destruct (clean_data _ _ t1) as [t2|] eqn:Hclean; simpl.
    + apply clean_data_keeps in Hclean as [Hc2 Hi2].
      rewrite lookup_insert_eq. eexists. split; [done|].
      split; [congruence|by etrans].
    + rewrite lookup_insert_eq. eauto.
  - rewrite lookup_insert_eq. eauto.
Qed.

Lemma runs_keep ws (ss : session_state) df :
  ss !! "cleaned_df" = Some df →
  ∃ df', runs ws ss !! "cleaned_df" = Some df' ∧
    columns df' = columns df ∧ index df' `sublist_of` index df.
Proof.
  revert ss df. induction ws as [|w ws IH]; intros ss df Hss; [eauto|].
  destruct (run_keeps w ss df Hss) as (df1 & H1 & Hc1 & Hi1).
  destruct (IH _ _ H1) as (df' & H' & Hc' & Hi').
  exists df'. split; [done|]. split; [congruence|by etrans].
Qed.

(** X15. The first uploaded file fixes the Working Table for the session:
    after a run with an uploaded file on a session without a table, and any
    sequence of further runs (further uploads included), the session holds
    a table with the column labels of that first file whose row labels are
    a subsequence of the file's row labels. *)
Theorem first_upload_fixes_table w ws (ss : session_state) f :
  ss !! "cleaned_df" = None → uploaded_file w = Some f →
  ∃ df', runs (w :: ws) ss !! "cleaned_df" = Some df' ∧
    columns df' = columns f ∧ index df' `sublist_of` index f.
Proof.
  intros Hnone Hup.
  assert (∃ df1, run w ss !! "cleaned_df" = Some df1 ∧
            columns df1 = columns f ∧ index df1 `sublist_of` index f)
    as (df1 & H1 & Hc1 & Hi1).
  { unfold run. rewrite Hup.
    assert (init_session f ss !! "cleaned_df" = Some f) as Hf
      by by rewrite init_session_lookup, Hnone.
    rewrite Hf.
    destruct (drop_missing_step _ _ f) as [t1|] eqn:Hdrop; [|eauto].
    apply drop_missing_step_keeps in Hdrop as [Hc Hi].
    destruct (clean_button w).
    - unfold clean_click. rewrite lookup_insert_eq. simpl.
      destruct (clean_data _ _ t1) as [t2|] eqn:Hclean; simpl.
      + apply clean_data_keeps in Hclean as [Hc2 Hi2].
        rewrite lookup_insert_eq. eexists. split; [done|].
        split; [congruence|by etrans].
      + rewrite lookup_insert_eq. eauto.
    - rewrite lookup_insert_eq. eauto. }
  destruct (runs_keep ws _ _ H1) as (df' & H' & Hc' & Hi').
  exists df'. split; [done|]. split; [congruence|by etrans].
Qed.

Lemma first_upload_fixes_table_witness :
  (∅ : session_state) !! "cleaned_df" = None ∧
  uploaded_file upload_people = Some people ∧
  ∃ df', runs (upload_people :: [upload_six]) ∅ !! "cleaned_df" = Some df' ∧
    columns df' = columns people ∧ index df' `sublist_of` index people.
Proof.
  split; [done|]. split; [done|].
  by apply (first_upload_fixes_table upload_people [upload_six] ∅ people).
Defined.

Lemma drop_missing_step_idem b C t t1 :
  wf t → drop_missing_step b C t = Some t1 →
  drop_missing_step b C t1 = Some t1.
Proof.
  unfold drop_missing_step. intros Hwf. destruct b; [|by intros [= ->]].
  destruct C as [|c C]; [by intros [= ->]|].
  by apply dropna_idempotent_aux.
Qed.

(** X16. A run is repeatable: with the Clean Data button not pressed, a
    second run with the same widget values leaves the session as the first
    run left it (the script runs again on every user action, and each run
    applies the drop of line 79 to the stored table). *)
Theorem run_repeatable w (ss : session_state) :
  clean_button w = false →
  (∀ f, uploaded_file w = Some f → wf f) → session_wf ss →
  run w (run w ss) = run w ss.
Proof.
  intros Hbtn Hf Hss. unfold run. rewrite Hbtn.
  destruct (uploaded_file w) as [f|] eqn:Hup; [|done].
  pose proof (init_session_lookup f ss) as Hl.
  assert (wf (default f (ss !! "cleaned_df"))) as Hwf.
  { destruct (ss !! "cleaned_df") as [t|] eqn:Ht; simpl; [by apply Hss|eauto]. }
  rewrite Hl.
  destruct (drop_missing_step _ _ (default f (ss !! "cleaned_df")))
    as [t1|] eqn:Hdrop.
  - rewrite (init_session_held f _ t1) by by rewrite lookup_insert_eq.
    rewrite lookup_insert_eq.
    rewrite (drop_missing_step_idem _ _ _ _ Hwf Hdrop).
    by rewrite insert_insert_eq.
  - rewrite (init_session_held f _ _ Hl), Hl. by rewrite Hdrop.
Qed.

Lemma run_repeatable_witness :
  clean_button upload_people = false ∧
  (∀ f, uploaded_file upload_people = Some f → wf f) ∧
  session_wf ∅ ∧
  run upload_people (run upload_people ∅) = run upload_people ∅.
Proof.
  assert (∀ f, uploaded_file upload_people = Some f → wf f) as Hf.
  { intros f [= <-]. repeat constructor. }
  assert (session_wf ∅) as Hss by (intros t Ht; done).
  split; [done|]. split; [done|]. split; [done|].
  by apply (run_repeatable upload_people ∅).
Defined.

(** ** Well-formed tables along the runs *)

Lemma getitem_elem_of c d col : getitem c d = Some col → (c, col) ∈ d.
Proof.
  induction d as [|[c' col'] d IH]; simpl; [done|].
  case_decide as Hc; simpl in *.
  - intros [= ->]. subst. by left.
  - intros H. right. by apply IH.
Qed.

Lemma wf_setitem c v v' df :
  wf df → getitem c (data df) = Some (NumCol v) → length v' = length v →
  wf (setitem c (NumCol v') df).
Proof.
  unfold wf, setitem, nrows. simpl. intros Hwf Hget Hlen.
  rewrite Forall_fmap. pose proof Hwf as Hall.
  rewrite Forall_forall in Hall.
  pose proof (Hall _ (getitem_elem_of _ _ _ Hget)) as Hv. simpl in Hv.
  eapply Forall_impl; [exact Hwf|]. intros [c' col'] Hc. simpl in *.
  case_decide; simpl; [|done].
  rewrite col_len_NumCol in *. congruence.
Qed.

Lemma wf_winsorize_loop cs df df' :
  wf df → winsorize_loop cs df = Some df' → wf df'.
Proof.
  revert df. induction cs as [|c cs IH]; intros df Hwf; simpl.
  - by intros [= <-].
  - destruct (getitem c (data df)) as [[v|v]|] eqn:Hget; [|done..].
    destruct (winsorize v) as [v'|] eqn:Hw; simpl; [|done].
    apply IH. eapply wf_setitem; [done..|]. by apply winsorize_length.
Qed.

Lemma wf_drop_missing_step b C t t1 :
  wf t → drop_missing_step b C t = Some t1 → wf t1.
Proof.
  unfold drop_missing_step. intros Hwf. destruct b; [|by intros [= <-]].
  destruct C as [|c C]; [by intros [= <-]|].
  intros [m ->]%dropna_Some. by apply wf_loc_mask.
Qed.

Lemma wf_clean_data h m t t2 : wf t → clean_data h m t = Some t2 → wf t2.
Proof.
  unfold clean_data. intros Hwf. destruct h; [|by intros [= <-]].
  repeat case_decide.
  - by apply wf_winsorize_loop.
  - intros [mask ->]%iqr_remove_loc_mask. by apply wf_loc_mask.
  - by intros [= <-].
Qed.

Lemma session_wf_insert (ss : session_state) t :
  wf t → session_wf (<["cleaned_df" := t]> ss).
Proof. intros Hwf t'. rewrite lookup_insert_eq. by intros [= <-]. Qed.

Lemma run_wf w (ss : session_state) :
  (∀ f, uploaded_file w = Some f → wf f) → session_wf ss →
  session_wf (run w ss).
Proof.
  intros Hf Hss. unfold run.
  destruct (uploaded_file w) as [f|] eqn:Hup; [|done].
  pose proof (init_session_lookup f ss) as Hl.
  assert (wf (default f (ss !! "cleaned_df"))) as Hwf.
  { destruct (ss !! "cleaned_df") as [t|] eqn:Ht; simpl; [by apply Hss|eauto]. }
  assert (session_wf (init_session f ss)) as Hss1.
  { intros t Ht. rewrite Hl in Ht. by injection Ht as <-. }
  rewrite Hl.
  destruct (drop_missing_step _ _ _) as [t1|] eqn:Hdrop; [|done].
  pose proof (wf_drop_missing_step _ _ _ _ Hwf Hdrop) as Hwf1.
  destruct (clean_button w); [|by apply session_wf_insert].
  unfold clean_click. rewrite lookup_insert_eq. simpl.
  destruct (clean_data _ _ t1) as [t2|] eqn:Hclean; simpl.
  - apply session_wf_insert. by eapply wf_clean_data.
  - by apply session_wf_insert.
Qed.

(** X19. Well-formedness is an invariant of the session: if every uploaded
    table has one cell per row in every column, then so has the Working
    Table after any sequence of runs. *)
Theorem runs_wf ws (ss : session_state) :
  Forall (λ w, ∀ f, uploaded_file w = Some f → wf f) ws →
  session_wf ss → session_wf (runs ws ss).
Proof.
  intros Hws. revert ss. induction Hws as [|w ws Hw _ IH]; intros ss Hss.
  - done.
  - simpl. apply IH. by apply run_wf.
Qed.

Lemma runs_wf_witness :
  Forall (λ w, ∀ f, uploaded_file w = Some f → wf f) [upload_people; upload_six] ∧
  session_wf ∅ ∧
  session_wf (runs [upload_people; upload_six] ∅).
Proof.
  assert (Forall (λ w, ∀ f, uploaded_file w = Some f → wf f)
            [upload_people; upload_six]) as Hws.
  { repeat constructor; intros f [= <-]; repeat constructor. }
  assert (session_wf ∅) as Hss by (intros t Ht; done).
  split; [done|]. split; [done|].
  by apply (runs_wf [upload_people; upload_six] ∅).
Defined.

(** ** The export path (line 156) *)

(** X20. The path of the exported file begins with [exports/] exactly when
    the file name does not begin with a slash; a file name that does is
    used as the path itself. *)
Theorem cleaned_df_path_in_exports f :
  ((∃ rest, cleaned_df_path f = "exports/" +:+ rest) ↔ starts_with_sep f = false)
  ∧ (starts_with_sep f = true → cleaned_df_path f = f).
Proof.
  split; [split|].
  - intros [rest H]. destruct (starts_with_sep f) eqn:Hsep; [|done].
    rewrite cleaned_df_path_absolute in H by done.
    destruct f as [|a f]; [done|]. simpl in Hsep.
    destruct a as [[] [] [] [] [] [] [] []]; try done.
  - intros H. exists f. by apply cleaned_df_path_relative.
  - apply cleaned_df_path_absolute.
Qed.

Lemma cleaned_df_path_in_exports_witness :
  starts_with_sep "/tmp/out.csv" = true ∧
  cleaned_df_path "/tmp/out.csv" = "/tmp/out.csv".
Proof.
  split; [done|].
  by apply (proj2 (cleaned_df_path_in_exports "/tmp/out.csv")).
Defined.
